(** * reV inclusion masks: a shallow embedding of [reV/supply_curve/exclusions.py]

    The development follows the Python module top to bottom:
    [LayerMask] (one policy per exclusion layer), then [ExclusionMask]
    (the combiner with its contiguous-area filter and window padding).

    Conventions of the embedding.
    - numpy arrays are two dimensional and are lists of rows; the
      [float16] cells are modelled by exact rationals ([Q]): rounding is
      not represented.
    - a Python exception is a value of [exception]; code that may raise
      returns a [result].
    - [scipy.ndimage.label] and [np.unique] are library calls; they are
      modelled by executable definitions of their documented behaviour. *)

From Stdlib Require Import String.
From Stdlib Require Import List ZArith QArith Qround Bool Lia Arith.
From Stdlib Require Import Permutation.
Import ListNotations.

Local Open Scope Z_scope.

(* ------------------------------------------------------------------ *)
(** * Exceptions *)

Inductive exception : Type :=
| ValueError
| RuntimeError
| TypeError
| AttributeError
| ZeroDivisionError
| StoreError.

Inductive result (A : Type) : Type :=
| Ok (a : A)
| Raise (e : exception).

Arguments Ok {A} a.
Arguments Raise {A} e.

Definition bind {A B : Type} (r : result A) (k : A -> result B) : result B :=
  match r with
  | Ok a => k a
  | Raise e => Raise e
  end.

Notation "x <- r ;; k" := (bind r (fun x => k))
  (at level 61, r at next level, right associativity).
Notation "' p <- r ;; k" := (bind r (fun p => k))
  (at level 61, p pattern, r at next level, right associativity).

(* ------------------------------------------------------------------ *)
(** * Arrays *)

Definition array (A : Type) := list (list A).
Definition ndarray := array Q.

Definition amap {A B : Type} (f : A -> B) (a : array A) : array B :=
  map (map f) a.

Fixpoint zip_with {A B C : Type} (f : A -> B -> C) (l : list A) (l' : list B)
  : list C :=
  match l, l' with
  | x :: t, y :: t' => f x y :: zip_with f t t'
  | _, _ => []
  end.

Definition amap2 {A B C : Type} (f : A -> B -> C) (a : array A) (b : array B)
  : array C :=
  zip_with (zip_with f) a b.

(** The shape of an array, row by row. *)
Definition row_lengths {A : Type} (a : array A) : list nat := map (@length A) a.

Definition same_shape {A B : Type} (a : array A) (b : array B) : bool :=
  if list_eq_dec Nat.eq_dec (row_lengths a) (row_lengths b) then true else false.

(** [cell a d i j] is [a[i, j]], and [d] outside of the array. *)
Definition cell {A : Type} (a : array A) (d : A) (i j : nat) : A :=
  nth j (nth i a []) d.

(** [bool.astype('float16')]. *)
Definition b2q (b : bool) : Q := if b then 1%Q else 0%Q.

(* ------------------------------------------------------------------ *)
(** * LayerMask *)

Inductive mask_type : Type := range | exclude | include.

Record LayerMask : Type := mkLayerMask {
  _layer : string;
  _inclusion_range : option Q * option Q;
  _exclude_values : option (list Q);
  _include_values : option (list Q);
  _as_weights : bool;
  _weight : Q;
  _mask_type : option mask_type
}.

Definition is_some {A : Type} (o : option A) : bool :=
  match o with Some _ => true | None => false end.

Definition min_value (self : LayerMask) : option Q := fst (_inclusion_range self).
Definition max_value (self : LayerMask) : option Q := snd (_inclusion_range self).

(** The loop of [_check_mask_type] over the items of [masks]. *)
Fixpoint check_masks (masks : list (mask_type * bool)) (mask : option mask_type)
  : result (option mask_type) :=
  match masks with
  | [] => Ok mask
  | (k, v) :: rest =>
      if v then
        match mask with
        | None => check_masks rest (Some k)
        | Some _ => Raise RuntimeError
        end
      else check_masks rest mask
  end.

Definition _check_mask_type (inclusion_range : option Q * option Q)
  (exclude_values include_values : option (list Q)) (as_weights : bool)
  : result (option mask_type) :=
  if negb as_weights then
    check_masks
      [ (range, is_some (fst inclusion_range) || is_some (snd inclusion_range));
        (exclude, is_some exclude_values);
        (include, is_some include_values) ]
      None
  else Ok None.

(** [LayerMask.__init__]. *)
Definition LayerMask_init (layer : string) (inclusion_range : option Q * option Q)
  (exclude_values include_values : option (list Q)) (use_as_weights : bool)
  (weight : Q) : result LayerMask :=
  if negb (Qle_bool weight 1) || negb (Qle_bool 0 weight) then Raise ValueError
  else
    mt <- _check_mask_type inclusion_range exclude_values include_values
            use_as_weights ;;
    Ok (mkLayerMask layer inclusion_range exclude_values include_values
          use_as_weights weight mt).

(** The value of a mask function: the Python scalar [True] with which
    [_range_mask] starts, or a boolean array. *)
Inductive bmask : Type :=
| BScalar (b : bool)
| BArray (a : array bool).

Definition _range_mask (self : LayerMask) (data : ndarray) : bmask :=
  let mask :=
    match min_value self with
    | Some mn => BArray (amap (fun v => Qle_bool mn v) data)
    | None => BScalar true
    end in
  match max_value self with
  | Some mx =>
      let le := amap (fun v => Qle_bool v mx) data in
      match mask with
      | BScalar b => BArray (amap (andb b) le)
      | BArray a => BArray (amap2 andb a le)
      end
  | None => mask
  end.

Definition isin (v : Q) (values : list Q) : bool := existsb (Qeq_bool v) values.

Definition _value_mask (data : ndarray) (values : list Q) (incl : bool) : bmask :=
  let mask := amap (fun v => isin v values) data in
  BArray (if negb incl then amap negb mask else mask).

(** [np.isin] against [None] finds nothing. *)
Definition values_or_none (o : option (list Q)) : list Q :=
  match o with Some l => l | None => [] end.

Definition _exclusion_mask (self : LayerMask) (data : ndarray) : bmask :=
  _value_mask data (values_or_none (_exclude_values self)) false.

Definition _inclusion_mask (self : LayerMask) (data : ndarray) : bmask :=
  _value_mask data (values_or_none (_include_values self)) true.

(** [x.astype('float16') * weight]. *)
Definition weighted (w : Q) (a : ndarray) : ndarray := amap (fun v => v * w)%Q a.

Definition _apply_mask (self : LayerMask) (data : ndarray) : result ndarray :=
  if negb (_as_weights self) then
    func <- match _mask_type self with
            | Some range => Ok (_range_mask self)
            | Some exclude => Ok (_exclusion_mask self)
            | Some include => Ok (_inclusion_mask self)
            | None => Raise ValueError
            end ;;
    match func data with
    | BArray a => Ok (weighted (_weight self) (amap b2q a))
    | BScalar _ => Raise AttributeError
    end
  else Ok (weighted (_weight self) data).

(* ------------------------------------------------------------------ *)
(** * Windows and the layer store *)

(** One entry of the [ds_slice] tuple: [slice(start, stop)], [...] or an
    explicit sequence of indices. *)
Inductive index : Type :=
| Slice (start stop : option Z)
| Ellipsis
| Indices (ix : list Z).

(** Python's resolution of one bound of a slice against a length. *)
Definition slice_bound (len : Z) (b : option Z) (dflt : Z) : Z :=
  match b with
  | None => dflt
  | Some i => if i <? 0 then Z.max 0 (i + len) else Z.min i len
  end.

(** [l[start:stop]]. *)
Definition getslice {A : Type} (start stop : option Z) (l : list A) : list A :=
  let len := Z.of_nat (length l) in
  let lo := slice_bound len start 0 in
  let hi := slice_bound len stop len in
  firstn (Z.to_nat (hi - lo)) (skipn (Z.to_nat lo) l).

(** [a[ys, xs]] for two slices. *)
Definition getslice2 {A : Type} (ys xs : option Z * option Z) (a : array A)
  : array A :=
  map (getslice (fst xs) (snd xs)) (getslice (fst ys) (snd ys) a).

(** Modelled from the spec: the raster layer store
    ([reV.handlers.exclusions.ExclusionLayers], not part of the sources):
    a catalogue of layer names, the shape of the domain and windowed reads
    of the raw values of one layer. *)
Record ExclusionLayers : Type := mkExclusionLayers {
  h5_layers : list string;
  h5_shape : Z * Z;
  h5_getitem : string -> list index -> result ndarray
}.

Fixpoint assoc {A : Type} (k : string) (l : list (string * A)) : option A :=
  match l with
  | [] => None
  | (k', v) :: t => if String.eqb k k' then Some v else assoc k t
  end.

(** Modelled from the spec: a store that holds its layers in memory. A
    read takes the rows and columns of a pair of ranges, or the whole
    layer for the full-domain marker; any other request is refused. *)
Definition array_getitem (datasets : list (string * ndarray)) (name : string)
  (ds_slice : list index) : result ndarray :=
  match assoc name datasets with
  | None => Raise StoreError
  | Some a =>
      match ds_slice with
      | [Slice ys ye; Slice xs xe] => Ok (getslice2 (ys, ye) (xs, xe) a)
      | [Ellipsis] => Ok a
      | _ => Raise StoreError
      end
  end.

Definition array_store (datasets : list (string * ndarray)) (shape : Z * Z)
  : ExclusionLayers :=
  mkExclusionLayers (map fst datasets) shape (array_getitem datasets).

(* ------------------------------------------------------------------ *)
(** * Connected regions: [scipy.ndimage.label] and [np.unique] *)

Definition coord : Type := nat * nat.

Definition coord_eqb (p q : coord) : bool :=
  Nat.eqb (fst p) (fst q) && Nat.eqb (snd p) (snd q).

Definition memb (p : coord) (l : list coord) : bool := existsb (coord_eqb p) l.

Fixpoint mapi_from {A B : Type} (f : nat -> A -> B) (i : nat) (l : list A)
  : list B :=
  match l with
  | [] => []
  | x :: t => f i x :: mapi_from f (S i) t
  end.

Definition amapi {A B : Type} (f : coord -> A -> B) (a : array A) : array B :=
  mapi_from (fun i row => mapi_from (fun j v => f (i, j) v) 0%nat row) 0%nat a.

(** The positions of an array in raster (row major) order. *)
Definition indices {A : Type} (a : array A) : list coord :=
  concat (amapi (fun p _ => p) a).

(** Two positions are neighbours under a 3x3 structuring element [s] when
    the entry of [s] at their offset, taken from its centre, is not 0. *)
Definition adjacent (s : array Z) (p q : coord) : bool :=
  let di := Z.of_nat (fst q) - Z.of_nat (fst p) + 1 in
  let dj := Z.of_nat (snd q) - Z.of_nat (snd p) + 1 in
  (0 <=? di) && (di <=? 2) && (0 <=? dj) && (dj <=? 2)
  && negb (cell s 0 (Z.to_nat di) (Z.to_nat dj) =? 0).

Section Regions.

(** [V]: the foreground positions, in raster order. *)
Variable V : list coord.
Variable s : array Z.

(** The foreground positions next to [S] that are not in [S]. *)
Definition frontier (S : list coord) : list coord :=
  filter (fun q => negb (memb q S) && existsb (fun p => adjacent s p q) S) V.

Fixpoint grow (fuel : nat) (S : list coord) : list coord :=
  match fuel with
  | O => S
  | Datatypes.S fuel' =>
      match frontier S with
      | [] => S
      | new => grow fuel' (new ++ S)
      end
  end.

(** The region of [p]: everything reached from [p] through neighbours. *)
Definition region (p : coord) : list coord := grow (length V) [p].

(** The first position of the region of [p] in raster order. *)
Definition region_first (p : coord) : coord :=
  match find (fun q => memb q (region p)) V with
  | Some q => q
  | None => p
  end.

(** The first positions of all regions, in raster order. *)
Definition region_firsts : list coord :=
  filter (fun q => coord_eqb (region_first q) q) V.

Fixpoint index_of (p : coord) (l : list coord) : nat :=
  match l with
  | [] => O
  | q :: t => if coord_eqb p q then O else Datatypes.S (index_of p t)
  end.

End Regions.

(** [scipy.ndimage.label(input, structure=s)[0]]: background is 0 and the
    regions are numbered from 1 in the raster order of their first
    position. *)
Definition ndimage_label (input : array bool) (s : array Z) : array nat :=
  let V := filter (fun p => cell input false (fst p) (snd p)) (indices input) in
  let firsts := region_firsts V s in
  amapi (fun p (b : bool) =>
           if b then Datatypes.S (index_of (region_first V s p) firsts) else O)
        input.

(** [np.unique(x, return_counts=True)] on labels: the values that occur,
    in increasing order, each with its number of occurrences. *)
Definition np_unique (x : list nat) : list (nat * nat) :=
  filter (fun vc => Nat.ltb 0 (snd vc))
         (map (fun v => (v, count_occ Nat.eq_dec x v))
              (seq 0 (Datatypes.S (list_max x)))).

(* ------------------------------------------------------------------ *)
(** * ExclusionMask *)

Inductive kernel : Type := queen | rook.

Definition FILTER_KERNELS (k : kernel) : array Z :=
  match k with
  | queen => [[1; 1; 1];
              [1; 1; 1];
              [1; 1; 1]]
  | rook => [[0; 1; 0];
             [1; 1; 1];
             [0; 1; 0]]
  end.

Record ExclusionMask : Type := mkExclusionMask {
  _layers : list (string * LayerMask);
  _excl_h5 : ExclusionLayers;
  _min_area : option Q;
  _kernel : kernel
}.

Definition layer_names (self : ExclusionMask) : list string :=
  map fst (_layers self).

Definition layers (self : ExclusionMask) : list LayerMask :=
  map snd (_layers self).

Definition in_names (name : string) (names : list string) : bool :=
  existsb (String.eqb name) names.

(** [d[k] = v] on an ordered dictionary: a present key keeps its place. *)
Fixpoint od_set {A : Type} (k : string) (v : A) (d : list (string * A))
  : list (string * A) :=
  match d with
  | [] => [(k, v)]
  | (k', v') :: t => if String.eqb k k' then (k, v) :: t
                     else (k', v') :: od_set k v t
  end.

Definition add_layer (self : ExclusionMask) (layer : LayerMask) (replace : bool)
  : result ExclusionMask :=
  let layer_name := _layer layer in
  if negb (in_names layer_name (h5_layers (_excl_h5 self))) then Raise ValueError
  else if in_names layer_name (layer_names self) && negb replace
  then Raise RuntimeError
  else Ok (mkExclusionMask (od_set layer_name layer (_layers self))
             (_excl_h5 self) (_min_area self) (_kernel self)).

Fixpoint add_layers (self : ExclusionMask) (ls : list LayerMask)
  : result ExclusionMask :=
  match ls with
  | [] => Ok self
  | layer :: rest => self' <- add_layer self layer false ;; add_layers self' rest
  end.

Definition kernel_of_string (name : string) : option kernel :=
  if String.eqb name "queen" then Some queen
  else if String.eqb name "rook" then Some rook
  else None.

(** [ExclusionMask.__init__]; the fields [_min_area] and [_kernel] are
    only set once the layers are added and the kernel name is accepted. *)
Definition ExclusionMask_init (excl_h5 : ExclusionLayers) (ls : list LayerMask)
  (min_area : option Q) (kernel_name : string) : result ExclusionMask :=
  self <- add_layers (mkExclusionMask [] excl_h5 None queen) ls ;;
  match kernel_of_string kernel_name with
  | Some k => Ok (mkExclusionMask (_layers self) excl_h5 min_area k)
  | None => Raise ValueError
  end.

(** [mask > 0]. *)
Definition positive_cell (v : Q) : bool := 0 <? Qnum v.

(** The default of [ex_area]: 90 m pixels. *)
Definition default_ex_area : Q := 81 # 10000.

Definition _area_filter (mask : ndarray) (min_area : Q) (k : kernel) (ex_area : Q)
  : result ndarray :=
  let s := FILTER_KERNELS k in
  let labels := ndimage_label (amap positive_cell mask) s in
  let lc := np_unique (concat labels) in
  if Qeq_bool ex_area 0 then Raise ZeroDivisionError
  else
    let min_counts := Qceiling (min_area / ex_area) in
    let pos := filter (fun vc => Z.of_nat (snd vc) <? min_counts) (tl lc) in
    let bad_labels := map fst pos in
    Ok (amap2 (fun v l => if existsb (Nat.eqb l) bad_labels then 0%Q else v)
          mask labels).

Definition full_slice : list index := [Slice None None; Slice None None].

Definition _increase_mask_slice (self : ExclusionMask) (ds_slice : list index)
  (n : Z) : result (list index * list index) :=
  match ds_slice with
  | [Slice y_start y_stop; Slice x_start x_stop] =>
      match y_start, y_stop, x_start, x_stop with
      | Some y_start, Some y_stop, Some x_start, Some x_stop =>
          let y_diff := n * Z.abs (y_stop - y_start) in
          let x_diff := n * Z.abs (x_stop - x_start) in
          let y_new_start := Z.max 0 (y_start - y_diff) in
          let x_new_start := Z.max 0 (x_start - x_diff) in
          let y_new_stop := Z.min (fst (h5_shape (_excl_h5 self)))
                                  (y_stop + y_diff) in
          let x_new_stop := Z.min (snd (h5_shape (_excl_h5 self)))
                                  (x_stop + x_diff) in
          let new_slice := [Slice (Some y_new_start) (Some y_new_stop);
                            Slice (Some x_new_start) (Some x_new_stop)] in
          let y_sub_start := if y_new_start =? y_start then 0 else n * y_diff in
          let x_sub_start := if x_new_start =? x_start then 0 else n * x_diff in
          let y_sub_stop := y_sub_start + y_diff in
          let x_sub_stop := x_sub_start + x_diff in
          Ok (new_slice, [Slice (Some y_sub_start) (Some y_sub_stop);
                          Slice (Some x_sub_start) (Some x_sub_stop)])
      | _, _, _, _ => Raise TypeError
      end
  | _ => Ok (ds_slice, full_slice)
  end.

(** [mask *= layer_mask]; arrays of different shapes are refused
    (broadcasting between layers is not modelled). *)
Definition imul (mask layer_mask : ndarray) : result ndarray :=
  if same_shape mask layer_mask then Ok (amap2 Qmult mask layer_mask)
  else Raise ValueError.

(** The loop of [_generate_mask] over [self.layers]. *)
Fixpoint combine_layers (excl_h5 : ExclusionLayers) (ds_slice : list index)
  (ls : list LayerMask) (mask : option ndarray) : result (option ndarray) :=
  match ls with
  | [] => Ok mask
  | layer :: rest =>
      data <- h5_getitem excl_h5 (_layer layer) ds_slice ;;
      layer_mask <- _apply_mask layer data ;;
      mask' <- match mask with
               | None => Ok layer_mask
               | Some m => imul m layer_mask
               end ;;
      combine_layers excl_h5 ds_slice rest (Some mask')
  end.

(** [mask[sub_slice]] for the sub slices [_increase_mask_slice] builds. *)
Definition crop (sub_slice : list index) (mask : ndarray) : result ndarray :=
  match sub_slice with
  | [Slice ys ye; Slice xs xe] => Ok (getslice2 (ys, ye) (xs, xe) mask)
  | _ => Raise TypeError
  end.

(** [ExclusionMask._generate_mask], on the tuple of the request once the
    single tuple argument is unwrapped. The result is Python's [None]
    when no layer is configured. *)
Definition _generate_mask (self : ExclusionMask) (ds_slice : list index)
  : result (option ndarray) :=
  '(ds_slice, sub_slice) <-
     match _min_area self with
     | Some _ => _increase_mask_slice self ds_slice 1
     | None => Ok (ds_slice, full_slice)
     end ;;
  mask <- combine_layers (_excl_h5 self) ds_slice (layers self) None ;;
  match _min_area self with
  | Some min_area =>
      match mask with
      | None => Raise TypeError
      | Some mask =>
          mask <- _area_filter mask min_area (_kernel self) default_ex_area ;;
          mask <- crop sub_slice mask ;;
          Ok (Some mask)
      end
  | None => Ok mask
  end.

(** [ExclusionMask.mask]: the request [self[...]]. *)
Definition mask (self : ExclusionMask) : result (option ndarray) :=
  _generate_mask self [Ellipsis].

(** The output of the policy of one layer over a window: the raw values
    are read from the store and the policy is applied to them. *)
Definition policy_output (excl_h5 : ExclusionLayers) (ds_slice : list index)
  (layer : LayerMask) : result ndarray :=
  data <- h5_getitem excl_h5 (_layer layer) ds_slice ;;
  _apply_mask layer data.

(** The elementwise product of a list of arrays; there is none for the
    empty list. *)
Definition times (acc : option ndarray) (o : ndarray) : option ndarray :=
  match acc with
  | None => Some o
  | Some a => Some (amap2 Qmult a o)
  end.

Definition elementwise_product (outs : list ndarray) : option ndarray :=
  fold_left times outs None.

Definition uniform_shape (outs : list ndarray) : Prop :=
  forall o o', In o outs -> In o' outs -> row_lengths o = row_lengths o'.

(** A layer whose cell at row [i] holds [i]. *)
Definition ramp (rows cols : nat) : ndarray :=
  map (fun i => repeat (inject_Z (Z.of_nat i)) cols) (seq 0 rows).

(** What makes [add_layer] accept each layer of a list in turn. *)
Definition addable (catalogue names : list string) (ls : list LayerMask) : Prop :=
  Forall (fun l => In (_layer l) catalogue) ls /\
  NoDup (map _layer ls) /\
  Forall (fun l => ~ In (_layer l) names) ls.

(** A small store and two policies over it. *)
Definition two_layers : ExclusionLayers :=
  array_store [("slope", [[3; 7]; [5; 9]]%Q); ("landuse", [[1; 2]; [2; 4]]%Q)]%string
              (2, 2).

Definition slope_policy : LayerMask :=
  mkLayerMask "slope" (None, Some (5 # 1)) None None false (1 # 2) (Some range).

Definition landuse_policy : LayerMask :=
  mkLayerMask "landuse" (None, None) (Some [2%Q]) None false 1 (Some exclude).

(** A position of an array. *)
Definition inb {A : Type} (a : array A) (p : coord) : Prop :=
  (fst p < length a)%nat /\ (snd p < length (nth (fst p) a []))%nat.

(** All rows of the array have the same length, as in a numpy array. *)
Definition rectangular {A : Type} (a : array A) : Prop :=
  forallb (fun r => Nat.eqb (length r) (length (hd [] a))) a = true.

(** The first [h] rows and [w] columns of an array. *)
Definition top_left {A : Type} (h w : nat) (a : array A) : array A :=
  map (firstn w) (firstn h a).

(** [connected V s p q]: a chain of neighbours, all in [V], leads from
    [p] to [q]. *)
Inductive connected (V : list coord) (s : array Z) (p : coord) : coord -> Prop :=
| connected_refl : In p V -> connected V s p p
| connected_step q r :
    connected V s p q -> In r V -> adjacent s q r = true -> connected V s p r.

(** Whether [mask > 0] holds at a position. *)
Definition is_fg (mask : ndarray) (p : coord) : bool :=
  cell (amap positive_cell mask) false (fst p) (snd p).

(** The foreground positions of a mask, in raster order. *)
Definition foreground (mask : ndarray) : list coord :=
  filter (is_fg mask) (indices (amap positive_cell mask)).

(** The label [ndimage_label] gives to one position. *)
Definition label_at (V : list coord) (s : array Z) (p : coord) (b : bool) : nat :=
  if b then S (index_of (region_first V s p) (region_firsts V s)) else O.

(** The label of a position of a mask, and the labels the filter
    removes for a given [min_counts]. *)
Definition label_of (mask : ndarray) (k : kernel) (p : coord) : nat :=
  label_at (foreground mask) (FILTER_KERNELS k) p (is_fg mask p).

Definition bad_labels (mask : ndarray) (k : kernel) (min_counts : Z) : list nat :=
  map fst (filter (fun vc => Z.of_nat (snd vc) <? min_counts)
                  (tl (np_unique (map (label_of mask k) (indices mask))))).

Definition removed (mask : ndarray) (k : kernel) (min_counts : Z) (p : coord)
  : bool :=
  existsb (Nat.eqb (label_of mask k p)) (bad_labels mask k min_counts).

(** The number of positions that carry the label of [p]: for a
    foreground position, the size of its region. *)
Definition region_count (mask : ndarray) (k : kernel) (p : coord) : nat :=
  count_occ Nat.eq_dec (map (label_of mask k) (indices mask)) (label_of mask k p).

(** Some position of the mask is not foreground. *)
Definition has_background (mask : ndarray) : Prop :=
  exists p, inb mask p /\ is_fg mask p = false.

(** A 5x5 mask with one isolated foreground pixel. *)
Definition single_pixel : ndarray :=
  [[0; 0; 0; 0; 0];
   [0; 0; 0; 0; 0];
   [0; 0; 1; 0; 0];
   [0; 0; 0; 0; 0];
   [0; 0; 0; 0; 0]]%Q.

(** The request rows 10:20 / cols 10:20 and its padded window. *)
Definition request : list index :=
  [Slice (Some 10) (Some 20); Slice (Some 10) (Some 20)].

Definition padded : list index :=
  [Slice (Some 0) (Some 30); Slice (Some 0) (Some 30)].

Definition in_request (p : coord) : Prop :=
  (10 <= fst p < 20)%nat /\ (10 <= snd p < 20)%nat.

Definition in_padded (p : coord) : Prop :=
  (fst p < 30)%nat /\ (snd p < 30)%nat.

(** [a[10:20, 10:20]]. *)
Definition restrict (a : ndarray) : ndarray :=
  getslice2 (Some 10, Some 20) (Some 10, Some 20) a.

(** A 100x100 layer that is 0 except on a line of twelve cells, row 15
    and columns 19 to 30: the line starts inside the request and ends
    just outside of the padded window. *)
Definition line_layer : ndarray :=
  map (fun i => map (fun j => if Nat.eqb i 15 && Nat.leb 19 j && Nat.leb j 30
                              then 1%Q else 0%Q)
                    (seq 0 100))
      (seq 0 100).

Definition line_mask : ExclusionMask :=
  mkExclusionMask [("a", mkLayerMask "a" (None, None) None None true 1 None)]%string
    (array_store [("a", line_layer)]%string (100, 100)) (Some (9 # 100)) queen.

(** A 100x100 layer that is 0 except at row 15, column 15. *)
Definition pixel_layer : ndarray :=
  map (fun i => map (fun j => if Nat.eqb i 15 && Nat.eqb j 15 then 1%Q else 0%Q)
                    (seq 0 100))
      (seq 0 100).

Definition pixel_mask : ExclusionMask :=
  mkExclusionMask [("a", mkLayerMask "a" (None, None) None None true 1 None)]%string
    (array_store [("a", pixel_layer)]%string (100, 100)) (Some (1 # 100)) queen.


(** The keys of the dictionary of layers are distinct and each key is
    the name of its layer. *)
Definition well_keyed (d : list (string * LayerMask)) : Prop :=
  NoDup (map fst d) /\ Forall (fun kv => _layer (snd kv) = fst kv) d.

(** The keyword arguments of [LayerMask] found in a dictionary of layers;
    an argument that is absent takes the default of the constructor. *)
Record layer_kwargs : Type := mkLayerKwargs {
  kw_inclusion_range : option (option Q * option Q);
  kw_exclude_values : option (list Q);
  kw_include_values : option (list Q);
  kw_use_as_weights : option bool;
  kw_weight : option Q
}.

Definition or_default {A : Type} (d : A) (o : option A) : A :=
  match o with Some a => a | None => d end.

(** [LayerMask(layer, **kwargs)]. *)
Definition LayerMask_kwargs (layer : string) (kwargs : layer_kwargs)
  : result LayerMask :=
  LayerMask_init layer
    (or_default (None, None) (kw_inclusion_range kwargs))
    (kw_exclude_values kwargs) (kw_include_values kwargs)
    (or_default false (kw_use_as_weights kwargs))
    (or_default 1%Q (kw_weight kwargs)).

(** The loop of [ExclusionMaskFromDict.__init__] over the items of
    [layers_dict]. *)
Fixpoint build_layers (layers_dict : list (string * layer_kwargs))
  : result (list LayerMask) :=
  match layers_dict with
  | [] => Ok []
  | (layer, kwargs) :: rest =>
      l <- LayerMask_kwargs layer kwargs ;;
      ls <- build_layers rest ;;
      Ok (l :: ls)
  end.

(** [ExclusionMaskFromDict.__init__]. *)
Definition ExclusionMaskFromDict_init (excl_h5 : ExclusionLayers)
  (layers_dict : list (string * layer_kwargs)) (min_area : option Q)
  (kernel_name : string) : result ExclusionMask :=
  ls <- build_layers layers_dict ;;
  ExclusionMask_init excl_h5 ls min_area kernel_name.

(** Every cell of the array lies in [0, 1]. *)
Definition unit_cells (a : ndarray) : Prop :=
  Forall (Forall (fun v => (0 <= v)%Q /\ (v <= 1)%Q)) a.

(** How many of the three ways to build a mask the arguments supply. *)
Definition supplied (inclusion_range : option Q * option Q)
  (exclude_values include_values : option (list Q)) : nat :=
  ((if is_some (fst inclusion_range) || is_some (snd inclusion_range)
    then 1 else 0)
   + (if is_some exclude_values then 1 else 0)
   + (if is_some include_values then 1 else 0))%nat.

(** A weight the constructor accepts. *)
Definition valid_weight (w : Q) : Prop := (0 <= w)%Q /\ (w <= 1)%Q.

(* ================================================================== *)
(** * Properties of LayerMask *)

Lemma valid_weight_check w :
  valid_weight w -> negb (Qle_bool w 1) || negb (Qle_bool 0 w) = false.
Proof.
  intros [H0 H1].
  apply Qle_bool_iff in H0. apply Qle_bool_iff in H1.
  now rewrite H0, H1.
Qed.



Lemma init_fields layer rng excl incl aw w self :
  LayerMask_init layer rng excl incl aw w = Ok self ->
  _inclusion_range self = rng /\ _exclude_values self = excl /\
  _include_values self = incl /\ _as_weights self = aw /\ _weight self = w /\
  _check_mask_type rng excl incl aw = Ok (_mask_type self).
Proof.
  unfold LayerMask_init.
  destruct (negb (Qle_bool w 1) || negb (Qle_bool 0 w)); [discriminate|].
  destruct (_check_mask_type rng excl incl aw) as [mt|e]; simpl; [|discriminate].
  intros H. injection H as <-. simpl. repeat split.
Qed.

(** A policy of type [range] holds one bound at least, so that its mask
    function returns an array. *)
Lemma range_mask_is_array self data :
  is_some (min_value self) || is_some (max_value self) = true ->
  exists a, _range_mask self data = BArray a.
Proof.
  unfold _range_mask.
  destruct (min_value self), (max_value self); simpl; try discriminate;
    intros _; eexists; reflexivity.
Qed.







(** A policy without [use_as_weights] and with nothing supplied is built
    without an error, and raises when it is applied. *)
Lemma nothing_supplied_deferred :
  exists self,
    LayerMask_init "slope" (None, None) None None false 1 = Ok self /\
    _apply_mask self [[1%Q]] = Raise ValueError.
Proof. eexists. split; reflexivity. Qed.

(** C4, amended. Without [use_as_weights]: supplying more than one of the
    range, the values to exclude and the values to include makes the
    constructor raise; supplying none of them is accepted by the
    constructor and is reported only when the policy is applied;
    supplying exactly one gives a policy that never raises. *)
Theorem mask_type_validation layer rng excl incl w :
  ((2 <= supplied rng excl incl)%nat ->
   exists e, LayerMask_init layer rng excl incl false w = Raise e) /\
  (valid_weight w -> supplied rng excl incl = 0%nat ->
   exists self, LayerMask_init layer rng excl incl false w = Ok self /\
                forall data, _apply_mask self data = Raise ValueError) /\
  (valid_weight w -> supplied rng excl incl = 1%nat ->
   exists self, LayerMask_init layer rng excl incl false w = Ok self /\
                forall data, exists out, _apply_mask self data = Ok out).
Proof.
  unfold supplied, LayerMask_init, _check_mask_type.
  split; [|split].
  - intros H.
    destruct (negb (Qle_bool w 1) || negb (Qle_bool 0 w)); [eexists; reflexivity|].
    destruct (is_some (fst rng) || is_some (snd rng)), (is_some excl),
      (is_some incl); simpl in *; try lia; eexists; reflexivity.
  - intros Hw H. rewrite (valid_weight_check _ Hw).
    destruct (is_some (fst rng) || is_some (snd rng)), (is_some excl),
      (is_some incl); simpl in *; try lia.
    eexists. split; [reflexivity|]. reflexivity.
  - intros Hw H. rewrite (valid_weight_check _ Hw).
    destruct (is_some (fst rng) || is_some (snd rng)) eqn:Hr, (is_some excl),
      (is_some incl); simpl in *; try lia;
      (eexists; split; [reflexivity|]); intros data; unfold _apply_mask; simpl.
    + destruct (range_mask_is_array
                  (mkLayerMask layer rng excl incl false w (Some range)) data)
        as [a ->]; [exact Hr|]. eexists; reflexivity.
    + eexists; reflexivity.
    + eexists; reflexivity.
Qed.

Lemma mask_type_validation_witness :
  (exists e, LayerMask_init "slope" (None, None) (Some [1%Q]) (Some [2%Q])
               false 1 = Raise e) /\
  (exists self, LayerMask_init "slope" (None, None) None None false 1 = Ok self /\
                forall data, _apply_mask self data = Raise ValueError) /\
  (exists self, LayerMask_init "slope" (None, None) None (Some [2%Q]) false 1
                = Ok self /\
                forall data, exists out, _apply_mask self data = Ok out).
Proof.
  assert (Hw : valid_weight 1) by (split; unfold Qle; simpl; lia).
  split; [|split].
  - apply (proj1 (mask_type_validation "slope" (None, None) (Some [1%Q])
                    (Some [2%Q]) 1)).
    vm_compute. lia.
  - apply (proj1 (proj2 (mask_type_validation "slope" (None, None) None None 1)));
      [exact Hw | reflexivity].
  - apply (proj2 (proj2 (mask_type_validation "slope" (None, None) None
                           (Some [2%Q]) 1))); [exact Hw | reflexivity].
Defined.

(* ================================================================== *)
(** * Properties of the window expander *)

(** With factor 1, when the padding below the start is not clamped (or
    the request starts at 0), the sub slice is the request seen from the
    new start. *)
Lemma recover_offset_unclamped self ys ye xs xe :
  ys <= ye -> xs <= xe ->
  ye - ys <= ys \/ ys = 0 -> xe - xs <= xs \/ xs = 0 ->
  exists ny nye nx nxe,
    _increase_mask_slice self [Slice (Some ys) (Some ye); Slice (Some xs) (Some xe)] 1
    = Ok ([Slice (Some ny) (Some nye); Slice (Some nx) (Some nxe)],
          [Slice (Some (ys - ny)) (Some (ys - ny + (ye - ys)));
           Slice (Some (xs - nx)) (Some (xs - nx + (xe - xs)))]).
Proof.
  intros Hy Hx Hys Hxs. unfold _increase_mask_slice. cbv zeta.
  assert (Ay : 1 * Z.abs (ye - ys) = ye - ys) by lia.
  assert (Ax : 1 * Z.abs (xe - xs) = xe - xs) by lia.
  rewrite Ay, Ax.
  assert (Ey : (if Z.max 0 (ys - (ye - ys)) =? ys then 0 else 1 * (ye - ys))
               = ys - Z.max 0 (ys - (ye - ys))).
  { destruct (Z.eqb_spec (Z.max 0 (ys - (ye - ys))) ys); lia. }
  assert (Ex : (if Z.max 0 (xs - (xe - xs)) =? xs then 0 else 1 * (xe - xs))
               = xs - Z.max 0 (xs - (xe - xs))).
  { destruct (Z.eqb_spec (Z.max 0 (xs - (xe - xs))) xs); lia. }
  rewrite Ey, Ex. do 4 eexists. reflexivity.
Qed.

(** C2. Near the lower edge of the domain the recovery offset is not the
    distance between the two starts: on a 100x100 domain the request
    rows 5:15 / cols 5:15 is padded to rows 0:25 / cols 0:25, whose start
    is 5 before the start of the request, and the recorded sub slice is
    10:20; cropping the padded read there returns rows and columns 10:20
    of the domain, not the requested 5:15. *)
Theorem recover_offset_clamped :
  let self := mkExclusionMask [] (array_store [("a", ramp 100 100)]%string
                                    (100, 100)) (Some 1%Q) queen in
  let request := [Slice (Some 5) (Some 15); Slice (Some 5) (Some 15)] in
  exists new_slice sub_slice,
    _increase_mask_slice self request 1 = Ok (new_slice, sub_slice) /\
    new_slice = [Slice (Some 0) (Some 25); Slice (Some 0) (Some 25)] /\
    sub_slice = [Slice (Some 10) (Some 20); Slice (Some 10) (Some 20)] /\
    (padded <- h5_getitem (_excl_h5 self) "a" new_slice ;; crop sub_slice padded)
    = h5_getitem (_excl_h5 self) "a"
        [Slice (Some 10) (Some 20); Slice (Some 10) (Some 20)] /\
    (padded <- h5_getitem (_excl_h5 self) "a" new_slice ;; crop sub_slice padded)
    <> h5_getitem (_excl_h5 self) "a" request.
Proof.
  do 2 eexists. split; [reflexivity|]. split; [reflexivity|].
  split; [reflexivity|]. split; [vm_compute; reflexivity|].
  vm_compute. discriminate.
Qed.

(* ================================================================== *)
(** * Properties of the combination of layers *)

Lemma bind_ok {A B : Type} (r : result A) (k : A -> result B) (b : B) :
  bind r k = Ok b <-> exists a, r = Ok a /\ k a = Ok b.
Proof.
  destruct r as [a|e]; simpl.
  - split; [intros H; now exists a | intros [a' [[= <-] H]]; exact H].
  - split; [discriminate | intros [a' [[=] _]]].
Qed.

Section ZipWith.

Context {A : Type} (f : A -> A -> A).
Hypothesis f_comm : forall x y, f x y = f y x.
Hypothesis f_assoc : forall x y z, f (f x y) z = f x (f y z).



End ZipWith.









Lemma same_shape_iff {A B : Type} (a : array A) (b : array B) :
  same_shape a b = true <-> row_lengths a = row_lengths b.
Proof.
  unfold same_shape.
  destruct (list_eq_dec Nat.eq_dec (row_lengths a) (row_lengths b));
    split; congruence.
Qed.

Lemma zip_with_length {A B C : Type} (f : A -> B -> C) l l' :
  length l = length l' -> length (zip_with f l l') = length l.
Proof.
  revert l'. induction l as [|x t IH]; intros [|y t']; simpl; try congruence.
  intros [= H]. now rewrite IH.
Qed.

Lemma row_lengths_amap2 {A B C : Type} (f : A -> B -> C) a b :
  row_lengths a = row_lengths b -> row_lengths (amap2 f a b) = row_lengths a.
Proof.
  unfold row_lengths, amap2. revert b.
  induction a as [|r t IH]; intros [|r' t']; simpl; try congruence.
  intros [= Hr Ht]. now rewrite zip_with_length, IH.
Qed.

Section Combine.

Variable excl_h5 : ExclusionLayers.
Variable ds_slice : list index.

Let output_of (l : LayerMask) (o : ndarray) : Prop :=
  policy_output excl_h5 ds_slice l = Ok o.

Lemma combine_layers_step layer rest acc r :
  combine_layers excl_h5 ds_slice (layer :: rest) acc = Ok r <->
  exists o, output_of layer o /\
            match acc with
            | None => True
            | Some m => row_lengths m = row_lengths o
            end /\
            combine_layers excl_h5 ds_slice rest (times acc o) = Ok r.
Proof.
  unfold output_of, policy_output. simpl.
  destruct (h5_getitem excl_h5 (_layer layer) ds_slice) as [data|e]; simpl.
  2:{ split; [discriminate | intros [o [[=] _]]]. }
  destruct (_apply_mask layer data) as [o|e]; simpl.
  2:{ split; [discriminate | intros [o [[=] _]]]. }
  destruct acc as [m|]; simpl.
  - unfold imul. destruct (same_shape m o) eqn:Hs; simpl.
    + apply same_shape_iff in Hs. split.
      * intros H. exists o. auto.
      * intros [o' [[= <-] [_ H]]]. exact H.
    + split; [discriminate|].
      intros [o' [[= <-] [Hm _]]]. apply same_shape_iff in Hm. congruence.
  - split.
    + intros H. exists o. auto.
    + intros [o' [[= <-] [_ H]]]. exact H.
Qed.

Lemma combine_layers_from ls m r :
  combine_layers excl_h5 ds_slice ls (Some m) = Ok r <->
  exists outs, Forall2 output_of ls outs /\
               Forall (fun o => row_lengths o = row_lengths m) outs /\
               r = fold_left times outs (Some m).
Proof.
  revert m r. induction ls as [|layer rest IH]; intros m r.
  - simpl. split.
    + intros [= <-]. exists []. repeat split; constructor.
    + intros [outs [H [_ ->]]]. inversion H. reflexivity.
  - rewrite combine_layers_step. split.
    + intros [o [Ho [Hm H]]]. simpl in H. apply IH in H as [outs [H2 [HF ->]]].
      exists (o :: outs). split; [now constructor|]. split; [|reflexivity].
      constructor; [congruence|].
      rewrite (row_lengths_amap2 _ _ _ Hm) in HF. exact HF.
    + intros [outs [H2 [HF ->]]].
      inversion H2 as [|l o ls' outs' Ho H2' E1 E2]; subst.
      inversion HF as [|o' outs'' Hm HF' E]; subst.
      exists o. split; [exact Ho|]. split; [congruence|].
      simpl. apply IH. exists outs'. split; [exact H2'|].
      split; [|reflexivity].
      rewrite row_lengths_amap2 by congruence. exact HF'.
Qed.

Lemma uniform_shape_cons o outs :
  uniform_shape (o :: outs) <->
  Forall (fun o' => row_lengths o' = row_lengths o) outs.
Proof.
  unfold uniform_shape. rewrite Forall_forall. split.
  - intros U o' Ho'. apply U; simpl; auto.
  - intros F x y [<-|Hx] [<-|Hy]; try reflexivity.
    + symmetry. now apply F.
    + now apply F.
    + rewrite (F _ Hx), (F _ Hy). reflexivity.
Qed.

(** The loop of [_generate_mask] returns the elementwise product of
    the outputs of the policies, which must all succeed and agree in
    shape. *)
Lemma combine_layers_spec ls r :
  combine_layers excl_h5 ds_slice ls None = Ok r <->
  exists outs, Forall2 output_of ls outs /\ uniform_shape outs /\
               r = elementwise_product outs.
Proof.
  destruct ls as [|layer rest].
  - simpl. split.
    + intros [= <-]. exists []. split; [constructor|].
      split; [intros o o' []|reflexivity].
    + intros [outs [H [_ ->]]]. inversion H. reflexivity.
  - rewrite combine_layers_step. split.
    + intros [o [Ho [_ H]]]. simpl in H.
      apply combine_layers_from in H as [outs [H2 [HF ->]]].
      exists (o :: outs). split; [now constructor|].
      split; [now apply uniform_shape_cons | reflexivity].
    + intros [outs [H2 [U ->]]].
      inversion H2 as [|l o ls' outs' Ho H2' E1 E2]; subst.
      exists o. split; [exact Ho|]. split; [exact I|].
      simpl. apply combine_layers_from. exists outs'.
      split; [exact H2'|]. split; [now apply uniform_shape_cons | reflexivity].
Qed.



End Combine.

(** C7. Without a minimum area the mask of a window is the elementwise
    product of the outputs of the policies of the configured layers, each
    applied to the raw values of its layer read over that same window:
    the window is not padded and the product is neither filtered nor
    cropped. *)
Theorem mask_without_min_area self ds_slice r :
  _min_area self = None ->
  (_generate_mask self ds_slice = Ok r <->
   exists outs,
     Forall2 (fun l o => policy_output (_excl_h5 self) ds_slice l = Ok o)
             (layers self) outs /\
     uniform_shape outs /\ r = elementwise_product outs).
Proof.
  intros Hmin. unfold _generate_mask. rewrite Hmin. simpl.
  rewrite <- combine_layers_spec.
  destruct (combine_layers (_excl_h5 self) ds_slice (layers self) None);
    simpl; reflexivity.
Qed.

Lemma mask_without_min_area_witness :
  let self := mkExclusionMask [("slope", slope_policy); ("landuse", landuse_policy)]%string
                two_layers None queen in
  _generate_mask self [Ellipsis] = Ok (Some [[1 # 2; 0 # 2]; [0 # 2; 0 # 2]]) <->
  exists outs,
    Forall2 (fun l o => policy_output (_excl_h5 self) [Ellipsis] l = Ok o)
            (layers self) outs /\
    uniform_shape outs /\
    Some [[1 # 2; 0 # 2]; [0 # 2; 0 # 2]] = elementwise_product outs.
Proof.
  apply (mask_without_min_area
           (mkExclusionMask [("slope", slope_policy); ("landuse", landuse_policy)]%string
              two_layers None queen)).
  reflexivity.
Defined.

Lemma in_names_iff name names : in_names name names = true <-> In name names.
Proof.
  unfold in_names. rewrite existsb_exists. split.
  - intros [x [Hx E]]. apply String.eqb_eq in E. now subst.
  - intros H. exists name. split; [exact H | apply String.eqb_refl].
Qed.

Lemma od_set_fresh {A : Type} k (v : A) d :
  ~ In k (map fst d) -> od_set k v d = d ++ [(k, v)].
Proof.
  induction d as [|[k' v'] t IH]; simpl; intros H; [reflexivity|].
  destruct (String.eqb k k') eqn:E.
  - apply String.eqb_eq in E. subst. tauto.
  - rewrite IH; [reflexivity | tauto].
Qed.

Lemma add_layers_spec self ls self' :
  add_layers self ls = Ok self' <->
  addable (h5_layers (_excl_h5 self)) (layer_names self) ls /\
  self' = mkExclusionMask (_layers self ++ map (fun l => (_layer l, l)) ls)
            (_excl_h5 self) (_min_area self) (_kernel self).
Proof.
  unfold addable. revert self. induction ls as [|l rest IH]; intros self.
  - simpl. rewrite app_nil_r. split.
    + intros [= <-]. split; [|now destruct self].
      repeat split; constructor.
    + intros [_ ->]. now destruct self.
  - simpl. unfold add_layer at 1.
    destruct (in_names (_layer l) (h5_layers (_excl_h5 self))) eqn:Hc; simpl.
    2:{ split; [discriminate|]. intros [[F _] _]. inversion F; subst.
        apply in_names_iff in H1. congruence. }
    apply in_names_iff in Hc.
    destruct (in_names (_layer l) (layer_names self)) eqn:Hn; simpl.
    { split; [discriminate|]. intros [[_ [_ F]] _]. inversion F; subst.
      apply in_names_iff in Hn. tauto. }
    assert (Hn' : ~ In (_layer l) (layer_names self)).
    { intros H. apply in_names_iff in H. congruence. }
    rewrite IH. simpl. unfold layer_names at 1. simpl.
    rewrite (od_set_fresh _ _ _ Hn'), map_app, <- app_assoc. simpl.
    split.
    + intros [[F [N D]] ->]. split; [|reflexivity]. split; [|split].
      * now constructor.
      * constructor; [|exact N]. intros Hin. apply in_map_iff in Hin as [l' [E Hl']].
        rewrite Forall_forall in D. apply (D l' Hl').
        rewrite E. apply in_or_app. right. now left.
      * constructor; [exact Hn'|].
        rewrite Forall_forall in *. intros x Hx Hin. apply (D x Hx).
        apply in_or_app. now left.
    + intros [[F [N D]] ->]. split; [|reflexivity].
      inversion F; subst. inversion N; subst. inversion D; subst.
      split; [assumption|]. split; [assumption|].
      rewrite Forall_forall in *. intros x Hx Hin.
      apply in_app_or in Hin as [Hin|[E|[]]].
      * now apply (H6 x Hx).
      * apply H3. rewrite E. now apply in_map.
Qed.


Lemma ExclusionMask_init_spec excl_h5 ls min_area kernel_name self :
  ExclusionMask_init excl_h5 ls min_area kernel_name = Ok self <->
  addable (h5_layers excl_h5) [] ls /\
  exists k, kernel_of_string kernel_name = Some k /\
            self = mkExclusionMask (map (fun l => (_layer l, l)) ls) excl_h5
                     min_area k.
Proof.
  unfold ExclusionMask_init. rewrite bind_ok. split.
  - intros [self0 [H0 H]]. apply add_layers_spec in H0 as [Ha ->].
    simpl in *. split; [exact Ha|].
    destruct (kernel_of_string kernel_name) as [k|]; [|discriminate].
    exists k. split; [reflexivity|]. now injection H as <-.
  - intros [Ha [k [Hk ->]]]. eexists. split.
    + apply add_layers_spec. split; [exact Ha | reflexivity].
    + simpl. now rewrite Hk.
Qed.

Lemma layers_named ls : map snd (map (fun l : LayerMask => (_layer l, l)) ls) = ls.
Proof. rewrite map_map. simpl. apply map_id. Qed.

Lemma generate_mask_ok self ds_slice r :
  _generate_mask self ds_slice = Ok r <->
  exists ds sub m,
    match _min_area self with
    | Some _ => _increase_mask_slice self ds_slice 1
    | None => Ok (ds_slice, full_slice)
    end = Ok (ds, sub) /\
    combine_layers (_excl_h5 self) ds (layers self) None = Ok m /\
    match _min_area self with
    | Some min_area =>
        match m with
        | None => Raise TypeError
        | Some mask =>
            mask <- _area_filter mask min_area (_kernel self) default_ex_area ;;
            mask <- crop sub mask ;;
            Ok (Some mask)
        end
    | None => Ok m
    end = Ok r.
Proof.
  unfold _generate_mask. rewrite bind_ok. split.
  - intros [[ds sub] [H1 H2]]. apply bind_ok in H2 as [m [H2 H3]].
    exists ds, sub, m. auto.
  - intros [ds [sub [m [H1 [H2 H3]]]]]. exists (ds, sub). split; [exact H1|].
    apply bind_ok. exists m. auto.
Qed.



(* ================================================================== *)
(** * Arrays and their positions *)

Lemma coord_eqb_eq p q : coord_eqb p q = true <-> p = q.
Proof.
  unfold coord_eqb. destruct p as [i j], q as [i' j']. simpl.
  rewrite andb_true_iff, !Nat.eqb_eq. split; [intros [-> ->] | intros [= -> ->]]; auto.
Qed.

Lemma coord_eqb_refl p : coord_eqb p p = true.
Proof. now apply coord_eqb_eq. Qed.

Lemma memb_iff p l : memb p l = true <-> In p l.
Proof.
  unfold memb. rewrite existsb_exists. split.
  - intros [x [Hx E]]. apply coord_eqb_eq in E. now subst.
  - intros H. exists p. split; [exact H | apply coord_eqb_refl].
Qed.

Lemma memb_false_iff p l : memb p l = false <-> ~ In p l.
Proof.
  rewrite <- memb_iff. destruct (memb p l); split; congruence.
Qed.

Lemma mapi_from_length {A B : Type} (f : nat -> A -> B) k l :
  length (mapi_from f k l) = length l.
Proof. revert k. induction l as [|x t IH]; intros k; simpl; [|rewrite IH]; reflexivity. Qed.

Lemma mapi_from_nth {A B : Type} (f : nat -> A -> B) k l i d d' :
  (i < length l)%nat ->
  nth i (mapi_from f k l) d' = f (k + i)%nat (nth i l d).
Proof.
  revert k i. induction l as [|x t IH]; intros k i H; simpl in *; [lia|].
  destruct i as [|i].
  - now rewrite Nat.add_0_r.
  - rewrite (IH (S k) i) by lia. f_equal. lia.
Qed.

Lemma mapi_from_seq {A B : Type} (f : nat -> A -> B) k l d :
  mapi_from f k l = map (fun i => f i (nth (i - k) l d)) (seq k (length l)).
Proof.
  revert k. induction l as [|x t IH]; intros k; simpl; [reflexivity|].
  rewrite Nat.sub_diag. f_equal. rewrite IH.
  apply map_ext_in. intros i Hi. apply in_seq in Hi.
  replace (i - k)%nat with (S (i - S k)) by lia. reflexivity.
Qed.

(** An array built position by position, read through [seq]. *)
Lemma amapi_seq {A B : Type} (f : coord -> A -> B) (a : array A) d :
  amapi f a =
  map (fun i => map (fun j => f (i, j) (cell a d i j))
                    (seq 0 (length (nth i a []))))
      (seq 0 (length a)).
Proof.
  unfold amapi. rewrite (mapi_from_seq _ 0 a []).
  apply map_ext_in. intros i _. rewrite Nat.sub_0_r.
  rewrite (mapi_from_seq _ 0 _ d).
  apply map_ext_in. intros j _. now rewrite Nat.sub_0_r.
Qed.

Lemma indices_seq {A : Type} (a : array A) :
  indices a =
  concat (map (fun i => map (pair i) (seq 0 (length (nth i a []))))
              (seq 0 (length a))).
Proof.
  unfold indices. destruct a as [|[|x r] t].
  - reflexivity.
  - unfold amapi. rewrite (mapi_from_seq _ 0 _ []). f_equal.
    apply map_ext_in. intros i _. rewrite Nat.sub_0_r.
    destruct (nth i ([] :: t) []) as [|y r'] eqn:E; [reflexivity|].
    rewrite (mapi_from_seq _ 0 _ y).
    apply map_ext_in. intros j _. reflexivity.
  - rewrite (amapi_seq _ _ x). reflexivity.
Qed.

Lemma in_indices {A : Type} (a : array A) p : In p (indices a) <-> inb a p.
Proof.
  rewrite indices_seq, in_concat. unfold inb. destruct p as [i j]. simpl. split.
  - intros [l [Hl Hp]]. apply in_map_iff in Hl as [i' [<- Hi']].
    apply in_map_iff in Hp as [j' [[= <- <-] Hj']].
    apply in_seq in Hi', Hj'. lia.
  - intros [Hi Hj]. exists (map (pair i) (seq 0 (length (nth i a [])))). split.
    + apply in_map_iff. exists i. split; [reflexivity|]. apply in_seq. lia.
    + apply in_map. apply in_seq. lia.
Qed.

Lemma NoDup_rows (n : nat -> nat) (L : list nat) :
  NoDup L -> NoDup (concat (map (fun i => map (pair i) (seq 0 (n i))) L)).
Proof.
  induction 1 as [|i L Hi HL IH]; simpl; [constructor|].
  apply NoDup_app.
  - apply Finite.Injective_map_NoDup; [|apply seq_NoDup].
    intros x y [= E]. exact E.
  - exact IH.
  - intros [i' j'] H1 H2. apply in_map_iff in H1 as [j [[= <- <-] _]].
    apply in_concat in H2 as [l [Hl Hp]].
    apply in_map_iff in Hl as [i'' [<- Hi'']].
    apply in_map_iff in Hp as [j'' [[= <- <-] _]]. contradiction.
Qed.

Lemma NoDup_indices {A : Type} (a : array A) : NoDup (indices a).
Proof. rewrite indices_seq. apply NoDup_rows. apply seq_NoDup. Qed.

Lemma concat_amapi {A B : Type} (f : coord -> A -> B) (a : array A) d :
  concat (amapi f a) = map (fun p => f p (cell a d (fst p) (snd p))) (indices a).
Proof.
  rewrite (amapi_seq _ _ d), indices_seq, concat_map, map_map.
  f_equal. apply map_ext. intros i. now rewrite map_map.
Qed.

Lemma amapi_length {A B : Type} (f : coord -> A -> B) (a : array A) :
  length (amapi f a) = length a.
Proof. apply mapi_from_length. Qed.

Lemma amapi_row_length {A B : Type} (f : coord -> A -> B) (a : array A) i :
  length (nth i (amapi f a) []) = length (nth i a []).
Proof.
  destruct (Nat.lt_ge_cases i (length a)) as [H|H].
  - unfold amapi. rewrite (mapi_from_nth _ _ _ _ [] []) by exact H.
    apply mapi_from_length.
  - rewrite !nth_overflow; [reflexivity | exact H | now rewrite amapi_length].
Qed.

Lemma cell_amapi {A B : Type} (f : coord -> A -> B) (a : array A) d d' i j :
  inb a (i, j) -> cell (amapi f a) d' i j = f (i, j) (cell a d i j).
Proof.
  intros [Hi Hj]. simpl in *. unfold cell, amapi.
  rewrite (mapi_from_nth _ _ _ _ [] []) by exact Hi.
  rewrite (mapi_from_nth _ _ _ _ d d') by exact Hj. reflexivity.
Qed.

Lemma cell_outside {A : Type} (a : array A) d i j :
  ~ inb a (i, j) -> cell a d i j = d.
Proof.
  unfold inb, cell. simpl. intros H.
  destruct (Nat.lt_ge_cases i (length a)) as [Hi|Hi].
  - apply nth_overflow. lia.
  - rewrite (nth_overflow a [] Hi). now destruct j.
Qed.

Lemma inb_amapi {A B : Type} (f : coord -> A -> B) (a : array A) p :
  inb (amapi f a) p <-> inb a p.
Proof. unfold inb. now rewrite amapi_length, amapi_row_length. Qed.

Lemma indices_amapi {A B : Type} (f : coord -> A -> B) (a : array A) :
  indices (amapi f a) = indices a.
Proof.
  rewrite !indices_seq, amapi_length. apply f_equal, map_ext. intros i.
  now rewrite amapi_row_length.
Qed.

(* ================================================================== *)
(** * Regions *)

Lemma find_ext_in {A : Type} (f g : A -> bool) (l : list A) :
  (forall x, In x l -> f x = g x) -> find f l = find g l.
Proof.
  induction l as [|x t IH]; intros H; simpl; [reflexivity|].
  rewrite <- (H x) by now left.
  destruct (f x); [reflexivity|]. apply IH. intros y Hy. apply H. now right.
Qed.

Lemma index_of_inj x y l :
  In x l -> In y l -> index_of x l = index_of y l -> x = y.
Proof.
  induction l as [|z t IH]; simpl; [tauto|]. intros Hx Hy.
  destruct (coord_eqb x z) eqn:Ex, (coord_eqb y z) eqn:Ey; try discriminate.
  - apply coord_eqb_eq in Ex, Ey. congruence.
  - intros [= E]. apply IH; [| |exact E].
    + destruct Hx as [<-|Hx]; [|exact Hx]. now rewrite coord_eqb_refl in Ex.
    + destruct Hy as [<-|Hy]; [|exact Hy]. now rewrite coord_eqb_refl in Ey.
Qed.

Section RegionFacts.

Variable V : list coord.
Variable s : array Z.
Hypothesis V_nodup : NoDup V.
Hypothesis adjacent_sym : forall p q, adjacent s p q = adjacent s q p.

Lemma connected_in_r p q : connected V s p q -> In q V.
Proof. induction 1; assumption. Qed.

Lemma connected_in_l p q : connected V s p q -> In p V.
Proof. induction 1; assumption. Qed.

Lemma connected_trans p q r :
  connected V s p q -> connected V s q r -> connected V s p r.
Proof.
  intros Hpq Hqr. induction Hqr as [_|x y _ IH Hy Ha]; [exact Hpq|].
  eapply connected_step; eassumption.
Qed.

Lemma connected_sym p q : connected V s p q -> connected V s q p.
Proof.
  induction 1 as [Hp|x y Hpx IH Hy Ha]; [now apply connected_refl|].
  apply connected_trans with x; [|exact IH].
  apply connected_step with y; [now apply connected_refl| |].
  - eapply connected_in_r; eassumption.
  - now rewrite adjacent_sym.
Qed.

Lemma in_frontier S q :
  In q (frontier V s S) <->
  In q V /\ ~ In q S /\ exists p, In p S /\ adjacent s p q = true.
Proof.
  unfold frontier. rewrite filter_In, andb_true_iff, negb_true_iff,
    memb_false_iff, existsb_exists. tauto.
Qed.

Lemma grow_S fuel S :
  grow V s (Datatypes.S fuel) S =
  match frontier V s S with
  | [] => S
  | _ => grow V s fuel (frontier V s S ++ S)
  end.
Proof. simpl. destruct (frontier V s S); reflexivity. Qed.

Lemma grow_incl fuel S x : In x S -> In x (grow V s fuel S).
Proof.
  revert S. induction fuel as [|fuel IH]; intros S H; [exact H|].
  rewrite grow_S. destruct (frontier V s S) as [|a l]; [exact H|].
  apply IH. apply in_or_app. now right.
Qed.

Lemma grow_sound p fuel S :
  (forall x, In x S -> connected V s p x) ->
  forall x, In x (grow V s fuel S) -> connected V s p x.
Proof.
  revert S. induction fuel as [|fuel IH]; intros S HS x; [apply HS|].
  rewrite grow_S. destruct (frontier V s S) as [|a l] eqn:E; [apply HS|].
  apply IH. intros y Hy. apply in_app_or in Hy as [Hy|Hy]; [|now apply HS].
  rewrite <- E in Hy. apply in_frontier in Hy as [Hv [_ [z [Hz Ha]]]].
  apply connected_step with z; auto.
Qed.

Lemma grow_closed fuel S :
  NoDup S -> incl S V -> (length V < length S + fuel)%nat ->
  forall x r, In x (grow V s fuel S) -> In r V -> adjacent s x r = true ->
              In r (grow V s fuel S).
Proof.
  revert S. induction fuel as [|fuel IH]; intros S HN HI HL.
  - pose proof (NoDup_incl_length HN HI). lia.
  - rewrite grow_S. destruct (frontier V s S) as [|a l] eqn:E.
    + intros x r Hx Hr Ha.
      destruct (memb r S) eqn:Em; [now apply memb_iff|].
      apply memb_false_iff in Em.
      assert (H : In r (frontier V s S)).
      { apply in_frontier. split; [exact Hr|]. split; [exact Em|]. now exists x. }
      rewrite E in H. destruct H.
    + rewrite <- E. apply IH.
      * apply NoDup_app; [now apply NoDup_filter | exact HN |].
        intros y Hy. apply in_frontier in Hy. tauto.
      * intros y Hy. apply in_app_or in Hy as [Hy|Hy]; [|now apply HI].
        apply in_frontier in Hy. tauto.
      * rewrite length_app, E. simpl. lia.
Qed.

Lemma region_spec p q : In p V -> (In q (region V s p) <-> connected V s p q).
Proof.
  intros Hp. unfold region. split.
  - apply grow_sound. intros x [<-|[]]. now apply connected_refl.
  - induction 1 as [_|x y _ IH Hy Ha].
    + apply grow_incl. now left.
    + apply grow_closed with x; try assumption.
      * constructor; [intros []|constructor].
      * intros z [<-|[]]. exact Hp.
      * simpl. lia.
Qed.

Lemma region_first_some p :
  In p V -> exists q, find (fun q => memb q (region V s p)) V = Some q.
Proof.
  intros Hp. destruct (find _ V) as [q|] eqn:E; [now exists q|].
  pose proof (find_none _ _ E p Hp) as H. simpl in H.
  apply memb_false_iff in H. exfalso. apply H.
  apply region_spec; [exact Hp | now apply connected_refl].
Qed.

Lemma region_first_connected p :
  In p V -> connected V s p (region_first V s p).
Proof.
  intros Hp. unfold region_first.
  destruct (region_first_some p Hp) as [q E]. rewrite E.
  apply find_some in E as [_ E]. apply memb_iff in E.
  now apply region_spec in E.
Qed.

Lemma region_first_ext p q :
  connected V s p q -> region_first V s p = region_first V s q.
Proof.
  intros H. pose proof (connected_in_l _ _ H) as Hp.
  pose proof (connected_in_r _ _ H) as Hq. unfold region_first.
  rewrite (find_ext_in (fun x => memb x (region V s p))
             (fun x => memb x (region V s q))).
  - destruct (region_first_some q Hq) as [x ->]. reflexivity.
  - intros x _.
    destruct (memb x (region V s q)) eqn:E.
    + apply memb_iff. apply memb_iff in E. apply region_spec; [exact Hp|].
      apply region_spec in E; [|exact Hq]. eapply connected_trans; eassumption.
    + apply memb_false_iff. apply memb_false_iff in E. intros H'. apply E.
      apply region_spec; [exact Hq|]. apply region_spec in H'; [|exact Hp].
      apply connected_trans with p; [now apply connected_sym | exact H'].
Qed.

Lemma region_first_in_firsts p :
  In p V -> In (region_first V s p) (region_firsts V s).
Proof.
  intros Hp. pose proof (region_first_connected p Hp) as H.
  unfold region_firsts. apply filter_In. split.
  - eapply connected_in_r; eassumption.
  - apply coord_eqb_eq. symmetry. now apply region_first_ext.
Qed.

(** Two foreground positions carry the same label exactly when they are
    connected. *)
Lemma label_at_eq p q :
  In p V -> In q V ->
  (label_at V s p true = label_at V s q true <-> connected V s p q).
Proof.
  intros Hp Hq. unfold label_at. split.
  - intros [= E]. apply index_of_inj in E; try now apply region_first_in_firsts.
    apply connected_trans with (region_first V s p).
    + now apply region_first_connected.
    + rewrite E. apply connected_sym. now apply region_first_connected.
  - intros H. now rewrite (region_first_ext _ _ H).
Qed.

End RegionFacts.

(** The two kernels are symmetric about their centre. *)
Lemma kernel_offset_sym k (a b : Z) :
  (0 <=? a + 1) && (a + 1 <=? 2) && (0 <=? b + 1) && (b + 1 <=? 2)
  && negb (cell (FILTER_KERNELS k) 0 (Z.to_nat (a + 1)) (Z.to_nat (b + 1)) =? 0)
  = (0 <=? - a + 1) && (- a + 1 <=? 2) && (0 <=? - b + 1) && (- b + 1 <=? 2)
    && negb (cell (FILTER_KERNELS k) 0 (Z.to_nat (- a + 1)) (Z.to_nat (- b + 1))
             =? 0).
Proof.
  assert (Ha : a < -1 \/ a = -1 \/ a = 0 \/ a = 1 \/ 1 < a) by lia.
  assert (Hb : b < -1 \/ b = -1 \/ b = 0 \/ b = 1 \/ 1 < b) by lia.
  destruct Ha as [Ha|[->|[->|[->|Ha]]]]; destruct Hb as [Hb|[->|[->|[->|Hb]]]];
    try (destruct k; reflexivity);
    repeat match goal with
           | |- context [?x <=? ?y] => destruct (Z.leb_spec x y); try lia
           end; simpl; try reflexivity.
Qed.

Lemma adjacent_kernel_sym k p q :
  adjacent (FILTER_KERNELS k) p q = adjacent (FILTER_KERNELS k) q p.
Proof.
  unfold adjacent.
  rewrite (kernel_offset_sym k (Z.of_nat (fst q) - Z.of_nat (fst p))
             (Z.of_nat (snd q) - Z.of_nat (snd p))).
  replace (- (Z.of_nat (fst q) - Z.of_nat (fst p)) + 1)
    with (Z.of_nat (fst p) - Z.of_nat (fst q) + 1) by lia.
  replace (- (Z.of_nat (snd q) - Z.of_nat (snd p)) + 1)
    with (Z.of_nat (snd p) - Z.of_nat (snd q) + 1) by lia.
  reflexivity.
Qed.

Lemma adjacent_below k i j :
  adjacent (FILTER_KERNELS k) (i, j) (S i, j) = true.
Proof.
  unfold adjacent. simpl fst. simpl snd.
  replace (Z.of_nat (S i) - Z.of_nat i + 1) with 2 by lia.
  replace (Z.of_nat j - Z.of_nat j + 1) with 1 by lia.
  destruct k; reflexivity.
Qed.

Lemma adjacent_right k i j :
  adjacent (FILTER_KERNELS k) (i, j) (i, S j) = true.
Proof.
  unfold adjacent. simpl fst. simpl snd.
  replace (Z.of_nat (S j) - Z.of_nat j + 1) with 2 by lia.
  replace (Z.of_nat i - Z.of_nat i + 1) with 1 by lia.
  destruct k; reflexivity.
Qed.

(** The example of the documentation of [scipy.ndimage.label]. *)
Example ndimage_label_documented :
  ndimage_label (amap (Z.eqb 1) [[0; 0; 1; 1; 0; 0];
                                 [0; 0; 0; 1; 0; 0];
                                 [1; 1; 0; 0; 1; 0];
                                 [0; 0; 0; 1; 0; 0]]) (FILTER_KERNELS rook)
  = [[0; 0; 1; 1; 0; 0];
     [0; 0; 0; 1; 0; 0];
     [2; 2; 0; 0; 3; 0];
     [0; 0; 0; 4; 0; 0]]%nat /\
  ndimage_label (amap (Z.eqb 1) [[0; 0; 1; 1; 0; 0];
                                 [0; 0; 0; 1; 0; 0];
                                 [1; 1; 0; 0; 1; 0];
                                 [0; 0; 0; 1; 0; 0]]) (FILTER_KERNELS queen)
  = [[0; 0; 1; 1; 0; 0];
     [0; 0; 0; 1; 0; 0];
     [2; 2; 0; 0; 1; 0];
     [0; 0; 0; 1; 0; 0]]%nat.
Proof. split; vm_compute; reflexivity. Qed.

(* ================================================================== *)
(** * [np_unique] *)

Lemma count_occ_le_max (x : list nat) v :
  (0 < count_occ Nat.eq_dec x v)%nat -> (v <= list_max x)%nat.
Proof.
  intros H. apply count_occ_In in H.
  pose proof (proj1 (list_max_le x (list_max x)) (Nat.le_refl _)) as F.
  rewrite Forall_forall in F. now apply F.
Qed.

Lemma in_np_unique x v c :
  In (v, c) (np_unique x) <-> c = count_occ Nat.eq_dec x v /\ (0 < c)%nat.
Proof.
  unfold np_unique. rewrite filter_In, in_map_iff. cbn [snd].
  rewrite Nat.ltb_lt. split.
  - intros [[v' [E _]] Hc]. injection E as -> <-. auto.
  - intros [-> H]. split; [|exact H]. exists v. split; [reflexivity|].
    apply in_seq. pose proof (count_occ_le_max x v H). lia.
Qed.

Lemma NoDup_map_fst_filter {A B : Type} (f : A * B -> bool) l :
  NoDup (map fst l) -> NoDup (map fst (filter f l)).
Proof.
  induction l as [|y t IH]; simpl; intros H; [constructor|].
  inversion H as [|? ? Hn Ht]; subst.
  destruct (f y); simpl; [|now apply IH].
  constructor; [|now apply IH].
  intros Hin. apply Hn. apply in_map_iff in Hin as [z [E Hz]].
  apply filter_In in Hz as [Hz _]. apply in_map_iff. now exists z.
Qed.

Lemma NoDup_np_unique x : NoDup (map fst (np_unique x)).
Proof.
  unfold np_unique. apply NoDup_map_fst_filter.
  rewrite map_map. cbn [fst]. rewrite map_id. apply seq_NoDup.
Qed.

(** When the label 0 occurs it comes first. *)
Lemma np_unique_head x :
  In O x -> exists rest, np_unique x = (O, count_occ Nat.eq_dec x O) :: rest.
Proof.
  intros H. unfold np_unique. simpl.
  apply (count_occ_In Nat.eq_dec) in H. apply Nat.ltb_lt in H. rewrite H.
  eexists. reflexivity.
Qed.

(** The label 0 is never among the labels after the first. *)
Lemma np_unique_tail_nonzero x c : ~ In (O, c) (tl (np_unique x)).
Proof.
  intros H.
  assert (Hin : In (O, c) (np_unique x)).
  { destruct (np_unique x); [destruct H | now right]. }
  apply in_np_unique in Hin as [-> Hc]. apply count_occ_In in Hc.
  destruct (np_unique_head x Hc) as [rest E]. rewrite E in H. simpl in H.
  pose proof (NoDup_np_unique x) as N. rewrite E in N. simpl in N.
  inversion N as [|? ? Hn _]; subst. apply Hn.
  apply in_map_iff. exists (O, count_occ Nat.eq_dec x O). auto.
Qed.

Lemma np_unique_tail_background x v c :
  In O x ->
  (In (v, c) (tl (np_unique x)) <->
   v <> O /\ c = count_occ Nat.eq_dec x v /\ (0 < c)%nat).
Proof.
  intros H0. destruct (np_unique_head x H0) as [rest E].
  rewrite <- in_np_unique. rewrite E. simpl. split.
  - intros H. split; [|now right].
    intros ->. apply (np_unique_tail_nonzero x c). now rewrite E.
  - intros [Hv [E'|H]]; [|exact H]. injection E' as E1 E2. congruence.
Qed.

(** With a single label there is nothing after the first. *)
Lemma np_unique_single x L : (forall v, In v x -> v = L) -> tl (np_unique x) = [].
Proof.
  intros H. pose proof (NoDup_np_unique x) as N.
  assert (F : forall vc, In vc (np_unique x) -> fst vc = L).
  { intros [v c] Hin. apply in_np_unique in Hin as [-> Hc].
    apply count_occ_In in Hc. simpl. now apply H. }
  destruct (np_unique x) as [|a [|b t]]; try reflexivity.
  exfalso. simpl in N. inversion N as [|? ? Hn _]; subst. apply Hn.
  rewrite (F a), <- (F b); simpl; auto.
Qed.

(* ================================================================== *)
(** * The area filter, position by position *)

Lemma mapi_from_const {A B : Type} (f : A -> B) k l :
  mapi_from (fun _ v => f v) k l = map f l.
Proof.
  revert k. induction l as [|x t IH]; intros k; simpl; [reflexivity|].
  now rewrite IH.
Qed.

Lemma mapi_from_ext {A B : Type} (f g : nat -> A -> B) k l :
  (forall i v, f i v = g i v) -> mapi_from f k l = mapi_from g k l.
Proof.
  intros H. revert k. induction l as [|x t IH]; intros k; simpl; [reflexivity|].
  now rewrite H, IH.
Qed.

Lemma amap_amapi {A B : Type} (f : A -> B) (a : array A) :
  amap f a = amapi (fun _ v => f v) a.
Proof.
  unfold amap, amapi.
  rewrite (mapi_from_ext _ (fun _ row => map f row)).
  - now rewrite mapi_from_const.
  - intros i row. apply mapi_from_const.
Qed.

Lemma indices_amap {A B : Type} (f : A -> B) (a : array A) :
  indices (amap f a) = indices a.
Proof. rewrite amap_amapi. apply indices_amapi. Qed.

Lemma cell_amap {A B : Type} (f : A -> B) (a : array A) d i j :
  cell (amap f a) (f d) i j = f (cell a d i j).
Proof.
  unfold cell, amap.
  change (@nil B) with (map f []). now rewrite !map_nth.
Qed.

Lemma is_fg_cell mask p :
  is_fg mask p = positive_cell (cell mask 0%Q (fst p) (snd p)).
Proof. unfold is_fg. exact (cell_amap positive_cell mask 0%Q (fst p) (snd p)). Qed.

Lemma in_foreground mask p : In p (foreground mask) <-> inb mask p /\ is_fg mask p = true.
Proof.
  unfold foreground. now rewrite filter_In, indices_amap, in_indices.
Qed.

Lemma is_fg_inb mask p : is_fg mask p = true -> inb mask p.
Proof.
  intros H. destruct p as [i j].
  destruct (Nat.lt_ge_cases i (length mask)) as [Hi|Hi];
    [destruct (Nat.lt_ge_cases j (length (nth i mask []))) as [Hj|Hj]|].
  - split; assumption.
  - rewrite is_fg_cell, cell_outside in H; [discriminate|].
    unfold inb. simpl. lia.
  - rewrite is_fg_cell, cell_outside in H; [discriminate|].
    unfold inb. simpl. lia.
Qed.

Lemma NoDup_foreground mask : NoDup (foreground mask).
Proof. apply NoDup_filter. apply NoDup_indices. Qed.

Lemma zip_with_mapi_from {A B C D : Type} (g : A -> C -> D) (h : nat -> B -> C)
  (f : A -> B) k l :
  zip_with g l (mapi_from h k (map f l)) = mapi_from (fun i v => g v (h i (f v))) k l.
Proof.
  revert k. induction l as [|x t IH]; intros k; simpl; [reflexivity|].
  now rewrite IH.
Qed.

Lemma amap2_amapi {A B C D : Type} (g : A -> C -> D) (h : coord -> B -> C)
  (f : A -> B) (a : array A) :
  amap2 g a (amapi h (amap f a)) = amapi (fun p v => g v (h p (f v))) a.
Proof.
  unfold amap2, amapi, amap. rewrite zip_with_mapi_from.
  apply mapi_from_ext. intros i row. apply zip_with_mapi_from.
Qed.

Lemma ndimage_label_amapi mask k :
  ndimage_label (amap positive_cell mask) (FILTER_KERNELS k)
  = amapi (label_at (foreground mask) (FILTER_KERNELS k)) (amap positive_cell mask).
Proof. reflexivity. Qed.

Lemma labels_concat mask k :
  concat (ndimage_label (amap positive_cell mask) (FILTER_KERNELS k))
  = map (label_of mask k) (indices mask).
Proof.
  rewrite ndimage_label_amapi, (concat_amapi _ _ false), indices_amap.
  reflexivity.
Qed.

(** The filter rewrites the mask position by position. *)
Lemma area_filter_amapi mask min_area k ex_area :
  Qeq_bool ex_area 0 = false ->
  _area_filter mask min_area k ex_area
  = Ok (amapi (fun p v =>
                 if existsb (Nat.eqb (label_at (foreground mask) (FILTER_KERNELS k)
                                        p (positive_cell v)))
                            (bad_labels mask k (Qceiling (min_area / ex_area)))
                 then 0%Q else v) mask).
Proof.
  intros Hex. unfold _area_filter. rewrite Hex, labels_concat.
  rewrite ndimage_label_amapi, amap2_amapi. reflexivity.
Qed.

Lemma area_filter_zero_area mask min_area k ex_area :
  Qeq_bool ex_area 0 = true ->
  _area_filter mask min_area k ex_area = Raise ZeroDivisionError.
Proof. intros Hex. unfold _area_filter. now rewrite Hex. Qed.

Lemma area_filter_cell mask min_area k ex_area out p :
  _area_filter mask min_area k ex_area = Ok out -> inb mask p ->
  cell out 0%Q (fst p) (snd p)
  = if removed mask k (Qceiling (min_area / ex_area)) p then 0%Q
    else cell mask 0%Q (fst p) (snd p).
Proof.
  intros H Hp. destruct (Qeq_bool ex_area 0) eqn:Hex.
  - rewrite area_filter_zero_area in H by exact Hex. discriminate.
  - rewrite area_filter_amapi in H by exact Hex. injection H as <-.
    destruct p as [i j]. simpl fst. simpl snd.
    rewrite (cell_amapi _ _ 0%Q) by exact Hp.
    unfold removed, label_of. now rewrite is_fg_cell.
Qed.

Lemma area_filter_shape mask min_area k ex_area out :
  _area_filter mask min_area k ex_area = Ok out ->
  indices out = indices mask /\ forall p, inb out p <-> inb mask p.
Proof.
  intros H. destruct (Qeq_bool ex_area 0) eqn:Hex.
  - rewrite area_filter_zero_area in H by exact Hex. discriminate.
  - rewrite area_filter_amapi in H by exact Hex. injection H as <-.
    split; [apply indices_amapi | intros p; apply inb_amapi].
Qed.

Lemma row_lengths_amapi {A B : Type} (f : coord -> A -> B) (a : array A) :
  row_lengths (amapi f a) = row_lengths a.
Proof.
  unfold row_lengths, amapi. generalize O at 2.
  induction a as [|r t IH]; intros k; simpl; [reflexivity|].
  now rewrite mapi_from_length, IH.
Qed.

Lemma in_bad_labels mask k min_counts v :
  In v (bad_labels mask k min_counts) <->
  exists c, In (v, c) (tl (np_unique (map (label_of mask k) (indices mask)))) /\
            Z.of_nat c < min_counts.
Proof.
  unfold bad_labels. rewrite in_map_iff. split.
  - intros [[v' c] [E H]]. simpl in E. subst v'.
    apply filter_In in H as [H Hc]. apply Z.ltb_lt in Hc. now exists c.
  - intros [c [H Hc]]. exists (v, c). split; [reflexivity|].
    apply filter_In. split; [exact H | now apply Z.ltb_lt].
Qed.

Lemma removed_iff mask k min_counts p :
  removed mask k min_counts p = true <->
  In (label_of mask k p) (bad_labels mask k min_counts).
Proof.
  unfold removed. rewrite existsb_exists. split.
  - intros [v [Hv E]]. apply Nat.eqb_eq in E. now rewrite E.
  - intros H. eexists. split; [exact H | apply Nat.eqb_refl].
Qed.

Lemma label_of_background mask k p : is_fg mask p = false -> label_of mask k p = O.
Proof. intros H. unfold label_of. now rewrite H. Qed.

Lemma label_of_foreground mask k p : is_fg mask p = true -> label_of mask k p <> O.
Proof. intros H. unfold label_of. rewrite H. simpl. discriminate. Qed.

(** Only foreground positions are removed. *)
Lemma removed_foreground mask k min_counts p :
  removed mask k min_counts p = true -> is_fg mask p = true.
Proof.
  intros H. apply removed_iff, in_bad_labels in H as [c [H _]].
  destruct (is_fg mask p) eqn:E; [reflexivity|].
  rewrite (label_of_background _ _ _ E) in H.
  now apply np_unique_tail_nonzero in H.
Qed.

Lemma area_filter_total mask min_area k ex_area :
  ~ (ex_area == 0)%Q -> exists out, _area_filter mask min_area k ex_area = Ok out.
Proof.
  intros H. destruct (Qeq_bool ex_area 0) eqn:E.
  - apply Qeq_bool_iff in E. contradiction.
  - rewrite area_filter_amapi by exact E. eexists. reflexivity.
Qed.

Lemma area_filter_row_lengths mask min_area k ex_area out :
  _area_filter mask min_area k ex_area = Ok out ->
  row_lengths out = row_lengths mask.
Proof.
  intros H. destruct (Qeq_bool ex_area 0) eqn:Hex.
  - rewrite area_filter_zero_area in H by exact Hex. discriminate.
  - rewrite area_filter_amapi in H by exact Hex. injection H as <-.
    apply row_lengths_amapi.
Qed.

(** C10. The filter only removes: it returns an array of the shape of
    its input in which every cell holds the value of the input or 0, and
    the cells that are not strictly positive in the input are left as
    they are. *)
Theorem area_filter_only_removes mask min_area k ex_area :
  ~ (ex_area == 0)%Q ->
  exists out,
    _area_filter mask min_area k ex_area = Ok out /\
    row_lengths out = row_lengths mask /\
    forall i j,
      (cell out 0%Q i j = cell mask 0%Q i j \/ cell out 0%Q i j = 0%Q) /\
      (positive_cell (cell mask 0%Q i j) = false ->
       cell out 0%Q i j = cell mask 0%Q i j).
Proof.
  intros Hex. destruct (area_filter_total mask min_area k ex_area Hex) as [out H].
  exists out. split; [exact H|]. split; [eapply area_filter_row_lengths; eassumption|].
  intros i j.
  destruct (area_filter_shape _ _ _ _ _ H) as [_ Hinb].
  assert (Hdec : inb mask (i, j) \/ ~ inb mask (i, j)).
  { unfold inb. simpl. lia. }
  destruct Hdec as [Hp|Hp].
  - pose proof (area_filter_cell _ _ _ _ _ (i, j) H Hp) as Hc. simpl in Hc.
    destruct (removed mask k (Qceiling (min_area / ex_area)) (i, j)) eqn:Er.
    + split; [now right|]. intros Hbg.
      apply removed_foreground in Er. rewrite is_fg_cell in Er. simpl in Er.
      congruence.
    + split; [now left|]. intros _. exact Hc.
  - rewrite (cell_outside mask) by exact Hp.
    rewrite (cell_outside out) by (now rewrite Hinb).
    split; [now left | reflexivity].
Qed.

Lemma area_filter_only_removes_witness :
  exists out,
    _area_filter [[1; 0; 1]; [1; 0; 0]]%Q (2 # 100) rook default_ex_area = Ok out /\
    row_lengths out = row_lengths [[1; 0; 1]; [1; 0; 0]]%Q /\
    forall i j,
      (cell out 0%Q i j = cell [[1; 0; 1]; [1; 0; 0]]%Q 0%Q i j \/
       cell out 0%Q i j = 0%Q) /\
      (positive_cell (cell [[1; 0; 1]; [1; 0; 0]]%Q 0%Q i j) = false ->
       cell out 0%Q i j = cell [[1; 0; 1]; [1; 0; 0]]%Q 0%Q i j).
Proof.
  apply (area_filter_only_removes [[1; 0; 1]; [1; 0; 0]]%Q (2 # 100) rook
           default_ex_area).
  intros H. vm_compute in H. discriminate.
Defined.

(* ================================================================== *)
(** * Regions of a mask and what the filter removes *)

Lemma count_occ_map_filter {A : Type} (f : A -> nat) (l : list A) v :
  count_occ Nat.eq_dec (map f l) v = length (filter (fun x => Nat.eqb (f x) v) l).
Proof.
  induction l as [|x t IH]; simpl; [reflexivity|].
  destruct (Nat.eq_dec (f x) v) as [E|E].
  - rewrite (proj2 (Nat.eqb_eq _ _) E). simpl. now rewrite IH.
  - rewrite (proj2 (Nat.eqb_neq _ _) E). exact IH.
Qed.

Lemma connected_mono V V' s p q :
  incl V V' -> connected V s p q -> connected V' s p q.
Proof.
  intros HI. induction 1 as [Hp|x y _ IH Hy Ha].
  - apply connected_refl. now apply HI.
  - eapply connected_step; [exact IH | now apply HI | exact Ha].
Qed.

Lemma forallb_false_exists {A : Type} (f : A -> bool) (l : list A) :
  forallb f l = false -> exists x, In x l /\ f x = false.
Proof.
  induction l as [|x t IH]; simpl; [discriminate|].
  destruct (f x) eqn:E; simpl.
  - intros H. destruct (IH H) as [y [Hy Hf]]. exists y. auto.
  - intros _. exists x. auto.
Qed.

Lemma amapi_fix {A : Type} (f : coord -> A -> A) (a : array A) d :
  (forall p, inb a p -> f p (cell a d (fst p) (snd p)) = cell a d (fst p) (snd p)) ->
  amapi f a = a.
Proof.
  intros H.
  assert (E : amapi f a = amapi (fun _ v => v) a).
  { rewrite !(amapi_seq _ _ d). apply map_ext_in. intros i Hi.
    apply map_ext_in. intros j Hj. apply in_seq in Hi, Hj.
    apply (H (i, j)). split; simpl; lia. }
  rewrite E, <- (amap_amapi (fun v => v)). unfold amap.
  rewrite (map_ext _ (fun r => r)); [apply map_id | intros r; apply map_id].
Qed.

Section MaskRegions.

Variable mask : ndarray.
Variable k : kernel.

Let V := foreground mask.
Let s := FILTER_KERNELS k.

Lemma fg_connected_in p q : connected V s p q -> is_fg mask q = true.
Proof.
  intros H. apply connected_in_r in H. now apply in_foreground in H.
Qed.

(** The positions that carry the label of a foreground position are
    the positions of its region. *)
Lemma label_of_eq_connected p q :
  is_fg mask p = true ->
  (label_of mask k q = label_of mask k p <-> connected V s p q).
Proof.
  intros Hp.
  assert (HpV : In p V) by (apply in_foreground; auto using is_fg_inb).
  destruct (is_fg mask q) eqn:Hq.
  - assert (HqV : In q V) by (apply in_foreground; auto using is_fg_inb).
    unfold label_of. rewrite Hp, Hq. split.
    + intros E. symmetry in E. revert E.
      apply (label_at_eq V s (NoDup_foreground mask) (adjacent_kernel_sym k));
        assumption.
    + intros H. symmetry.
      now apply (label_at_eq V s (NoDup_foreground mask) (adjacent_kernel_sym k)).
  - rewrite (label_of_background _ _ _ Hq). split.
    + intros E. symmetry in E. now apply label_of_foreground in E.
    + intros H. apply fg_connected_in in H. congruence.
Qed.

Lemma region_count_filter p :
  region_count mask k p
  = length (filter (fun q => Nat.eqb (label_of mask k q) (label_of mask k p))
                   (indices mask)).
Proof. apply count_occ_map_filter. Qed.

Lemma region_count_pos p : inb mask p -> (0 < region_count mask k p)%nat.
Proof.
  intros H. unfold region_count. apply count_occ_In.
  apply in_map. now apply in_indices.
Qed.

(** With some background in the mask, the filter removes exactly the
    foreground positions whose region counts less than [min_counts]. *)
Lemma removed_with_background min_counts p :
  has_background mask ->
  (removed mask k min_counts p = true <->
   is_fg mask p = true /\ Z.of_nat (region_count mask k p) < min_counts).
Proof.
  intros [p0 [Hp0 Hbg]].
  assert (H0 : In O (map (label_of mask k) (indices mask))).
  { apply in_map_iff. exists p0. split; [now apply label_of_background|].
    now apply in_indices. }
  rewrite removed_iff, in_bad_labels. split.
  - intros [c [Hc Hlt]].
    apply (np_unique_tail_background _ _ _ H0) in Hc as [Hne [-> _]].
    split; [|exact Hlt].
    destruct (is_fg mask p) eqn:E; [reflexivity|].
    now rewrite label_of_background in Hne.
  - intros [Hfg Hlt]. exists (region_count mask k p). split; [|exact Hlt].
    apply np_unique_tail_background; [exact H0|].
    split; [now apply label_of_foreground|]. split; [reflexivity|].
    apply region_count_pos. now apply is_fg_inb.
Qed.

(** Without background a rectangular mask is one region, which the
    filter never removes. *)
Lemma rectangular_rows i i' :
  rectangular mask -> (i < length mask)%nat -> (i' < length mask)%nat ->
  length (nth i mask []) = length (nth i' mask []).
Proof.
  unfold rectangular. rewrite forallb_forall. intros R Hi Hi'.
  pose proof (R _ (nth_In mask [] Hi)) as E. apply Nat.eqb_eq in E.
  pose proof (R _ (nth_In mask [] Hi')) as E'. apply Nat.eqb_eq in E'.
  congruence.
Qed.

Lemma all_foreground_connected :
  rectangular mask -> (forall p, inb mask p -> is_fg mask p = true) ->
  forall p, inb mask p -> connected V s (O, O) p.
Proof.
  intros R Hall.
  assert (Hin : forall p, inb mask p -> In p V).
  { intros p Hp. apply in_foreground. auto. }
  assert (Hcol : forall i, inb mask (i, O) -> connected V s (O, O) (i, O)).
  { induction i as [|i IH]; intros Hi.
    - apply connected_refl. now apply Hin.
    - destruct Hi as [Hi Hj]. simpl in Hi, Hj.
      apply connected_step with (i, O); [| |apply adjacent_below].
      + apply IH. split; simpl; [lia|].
        rewrite (rectangular_rows i (S i)); auto; lia.
      + apply Hin. split; assumption. }
  intros [i j]. induction j as [|j IH]; intros Hp; [now apply Hcol|].
  destruct Hp as [Hi Hj]. simpl in Hi, Hj.
  apply connected_step with (i, j); [| |apply adjacent_right].
  - apply IH. split; simpl; lia.
  - apply Hin. split; assumption.
Qed.

Lemma origin_inb p : rectangular mask -> inb mask p -> inb mask (O, O).
Proof.
  intros R [Hi Hj]. split; simpl; [lia|].
  rewrite (rectangular_rows O (fst p)); auto; lia.
Qed.

Lemma bad_labels_all_foreground min_counts :
  rectangular mask -> (forall p, inb mask p -> is_fg mask p = true) ->
  bad_labels mask k min_counts = [].
Proof.
  intros R Hall. unfold bad_labels.
  rewrite (np_unique_single _ (label_of mask k (O, O))); [reflexivity|].
  intros v Hv. apply in_map_iff in Hv as [p [<- Hp]]. apply in_indices in Hp.
  apply label_of_eq_connected.
  - apply Hall. eapply origin_inb; eassumption.
  - now apply all_foreground_connected.
Qed.

End MaskRegions.

(* ================================================================== *)
(** * Filtering a filtered mask *)

Section Filtered.

Variable mask : ndarray.
Variable k : kernel.
Variables min_area ex_area : Q.
Variable out : ndarray.
Hypothesis filtered : _area_filter mask min_area k ex_area = Ok out.

Let min_counts := Qceiling (min_area / ex_area).
Let s := FILTER_KERNELS k.

Lemma is_fg_filtered p :
  is_fg out p = is_fg mask p && negb (removed mask k min_counts p).
Proof.
  assert (Hdec : inb mask p \/ ~ inb mask p) by (unfold inb; lia).
  destruct Hdec as [Hp|Hp].
  - rewrite !is_fg_cell, (area_filter_cell _ _ _ _ _ p filtered Hp).
    fold min_counts.
    destruct (removed mask k min_counts p); simpl;
      [now rewrite andb_false_r | now rewrite andb_true_r].
  - assert (Hm : is_fg mask p = false).
    { destruct (is_fg mask p) eqn:E; [|reflexivity].
      apply is_fg_inb in E. contradiction. }
    rewrite Hm. simpl.
    destruct (is_fg out p) eqn:E; [|reflexivity].
    apply is_fg_inb in E. apply (area_filter_shape _ _ _ _ _ filtered) in E.
    contradiction.
Qed.

Lemma foreground_filtered_incl : incl (foreground out) (foreground mask).
Proof.
  intros p Hp. apply in_foreground in Hp as [Hi Hf].
  rewrite is_fg_filtered in Hf. apply andb_true_iff in Hf as [Hf _].
  apply in_foreground. split; [|exact Hf].
  now apply (area_filter_shape _ _ _ _ _ filtered).
Qed.

Lemma removed_same_label p q :
  label_of mask k q = label_of mask k p ->
  removed mask k min_counts q = removed mask k min_counts p.
Proof. intros E. unfold removed. now rewrite E. Qed.

(** The region of a position that is kept is the same before and after. *)
Lemma connected_filtered p q :
  is_fg out p = true ->
  (connected (foreground out) s p q <-> connected (foreground mask) s p q).
Proof.
  intros Hp. split; [apply connected_mono, foreground_filtered_incl|].
  pose proof Hp as Hp'. rewrite is_fg_filtered in Hp'.
  apply andb_true_iff in Hp' as [Hfg Hrm]. apply negb_true_iff in Hrm.
  induction 1 as [HpV|x y Hx IH Hy Ha].
  - apply connected_refl. apply in_foreground. split; [|exact Hp].
    now apply is_fg_inb.
  - apply connected_step with x; [exact IH| |exact Ha].
    assert (Hc : connected (foreground mask) s p y)
      by (eapply connected_step; eassumption).
    apply in_foreground in Hy as [Hyi Hyf].
    apply in_foreground. split.
    + now apply (area_filter_shape _ _ _ _ _ filtered).
    + rewrite is_fg_filtered, Hyf. simpl.
      apply (label_of_eq_connected mask k p y Hfg) in Hc.
      now rewrite (removed_same_label p y Hc), Hrm.
Qed.

Lemma region_count_filtered p :
  is_fg out p = true -> region_count out k p = region_count mask k p.
Proof.
  intros Hp. rewrite !region_count_filter.
  rewrite (proj1 (area_filter_shape _ _ _ _ _ filtered)).
  f_equal. apply filter_ext. intros q.
  pose proof Hp as Hp'. rewrite is_fg_filtered in Hp'.
  apply andb_true_iff in Hp' as [Hfg _].
  apply eq_true_iff_eq. rewrite !Nat.eqb_eq.
  rewrite (label_of_eq_connected out k p q Hp).
  rewrite (label_of_eq_connected mask k p q Hfg).
  now apply connected_filtered.
Qed.

Lemma filtered_keeps_background : has_background mask -> has_background out.
Proof.
  intros [p [Hp Hbg]]. exists p. split.
  - now apply (area_filter_shape _ _ _ _ _ filtered).
  - rewrite is_fg_filtered, Hbg. reflexivity.
Qed.

(** Every region that is kept is large enough: a second pass removes
    nothing. *)
Lemma removed_filtered p :
  has_background mask -> removed out k min_counts p = false.
Proof.
  intros Hbg. destruct (removed out k min_counts p) eqn:E; [|reflexivity].
  apply (removed_with_background out k min_counts p
           (filtered_keeps_background Hbg)) in E as [Hfg Hlt].
  rewrite (region_count_filtered p Hfg) in Hlt.
  rewrite is_fg_filtered in Hfg. apply andb_true_iff in Hfg as [Hfg Hrm].
  apply negb_true_iff in Hrm.
  assert (Hr : removed mask k min_counts p = true)
    by (apply removed_with_background; auto).
  congruence.
Qed.

Lemma refilter_with_background :
  has_background mask -> _area_filter out min_area k ex_area = Ok out.
Proof.
  intros Hbg. destruct (Qeq_bool ex_area 0) eqn:Hex.
  - rewrite area_filter_zero_area in filtered by exact Hex. discriminate.
  - rewrite area_filter_amapi by exact Hex. f_equal.
    apply (amapi_fix _ _ 0%Q). intros p Hp.
    rewrite <- is_fg_cell.
    change (existsb _ _) with (removed out k min_counts p).
    now rewrite removed_filtered.
Qed.

Lemma filter_all_foreground :
  rectangular mask -> (forall p, inb mask p -> is_fg mask p = true) ->
  out = mask.
Proof.
  intros R Hall. destruct (Qeq_bool ex_area 0) eqn:Hex.
  - rewrite area_filter_zero_area in filtered by exact Hex. discriminate.
  - rewrite area_filter_amapi in filtered by exact Hex.
    rewrite (bad_labels_all_foreground mask k _ R Hall) in filtered.
    simpl in filtered. injection filtered as <-.
    apply (amapi_fix _ _ 0%Q). reflexivity.
Qed.

End Filtered.

(** C6. The filter is idempotent: on a (rectangular) mask and a non-zero
    pixel area it returns an array, and filtering that array again with
    the same kernel and minimum area returns it unchanged. *)
Theorem area_filter_idempotent mask min_area k ex_area :
  rectangular mask -> ~ (ex_area == 0)%Q ->
  exists out,
    _area_filter mask min_area k ex_area = Ok out /\
    _area_filter out min_area k ex_area = Ok out.
Proof.
  intros R Hex.
  destruct (area_filter_total mask min_area k ex_area Hex) as [out H].
  exists out. split; [exact H|].
  destruct (forallb (is_fg mask) (indices mask)) eqn:E.
  - assert (Hall : forall p, inb mask p -> is_fg mask p = true).
    { intros p Hp. apply in_indices in Hp.
      rewrite forallb_forall in E. now apply E. }
    assert (Eo : out = mask) by (eapply filter_all_foreground; eassumption).
    rewrite Eo in *. exact H.
  - apply (refilter_with_background _ _ _ _ _ H).
    apply forallb_false_exists in E as [p [Hp Hf]].
    exists p. split; [now apply in_indices | exact Hf].
Qed.

Lemma area_filter_idempotent_witness :
  exists out,
    _area_filter [[1; 0; 1]; [1; 0; 0]]%Q (2 # 100) rook default_ex_area = Ok out /\
    _area_filter out (2 # 100) rook default_ex_area = Ok out.
Proof.
  apply (area_filter_idempotent [[1; 0; 1]; [1; 0; 0]]%Q (2 # 100) rook
           default_ex_area).
  - reflexivity.
  - intros H. vm_compute in H. discriminate.
Defined.

(* ================================================================== *)
(** * Which regions the filter removes *)




(** X27. A rectangular mask without background comes back unchanged,
    whatever the minimum area. *)
Lemma area_filter_all_foreground mask min_area k ex_area :
  rectangular mask -> (forall p, inb mask p -> is_fg mask p = true) ->
  ~ (ex_area == 0)%Q ->
  _area_filter mask min_area k ex_area = Ok mask.
Proof.
  intros R Hall Hex.
  destruct (area_filter_total mask min_area k ex_area Hex) as [out H].
  rewrite H. f_equal. eapply filter_all_foreground; eassumption.
Qed.

(** An isolated pixel of 0.0081 km2 is removed for a minimum area of
    0.01 km2 and kept for a minimum area of 0.005 km2. *)
Example single_pixel_removed k :
  _area_filter single_pixel (1 # 100) k default_ex_area = Ok (amap (fun _ => 0%Q) single_pixel).
Proof. destruct k; vm_compute; reflexivity. Qed.

Example single_pixel_kept k :
  _area_filter single_pixel (5 # 1000) k default_ex_area = Ok single_pixel.
Proof. destruct k; vm_compute; reflexivity. Qed.

(** C3. A region in a mask without background is not removed: the mask
    of one pixel is a region of one pixel, 0.0081 km2, below the
    minimum area of 1 km2 ([min_counts] is 124), and the filter returns
    it as it is. *)
Theorem area_filter_without_background :
  _area_filter [[1%Q]] 1 queen default_ex_area = Ok [[1%Q]] /\
  is_fg [[1%Q]] (O, O) = true /\
  region_count [[1%Q]] queen (O, O) = 1%nat /\
  (inject_Z 1 * default_ex_area < 1)%Q /\
  Qceiling (1 / default_ex_area) = 124.
Proof. repeat split. Qed.

(* ================================================================== *)
(** * Reading a window that starts at the origin *)

Lemma firstn_zip_with {A B C : Type} (f : A -> B -> C) n l l' :
  firstn n (zip_with f l l') = zip_with f (firstn n l) (firstn n l').
Proof.
  revert l l'. induction n as [|n IH]; intros [|x t] [|y t']; simpl;
    try reflexivity.
  now rewrite IH.
Qed.

Lemma map_zip_with {A B C A' B' C' : Type} (f : A -> B -> C) (f' : A' -> B' -> C')
  (ga : A -> A') (gb : B -> B') (gc : C -> C') l l' :
  (forall x y, gc (f x y) = f' (ga x) (gb y)) ->
  map gc (zip_with f l l') = zip_with f' (map ga l) (map gb l').
Proof.
  intros H. revert l'. induction l as [|x t IH]; intros [|y t']; simpl;
    try reflexivity.
  now rewrite H, IH.
Qed.

Lemma top_left_amap2 {A B C : Type} (f : A -> B -> C) h w a b :
  top_left h w (amap2 f a b) = amap2 f (top_left h w a) (top_left h w b).
Proof.
  unfold top_left, amap2. rewrite firstn_zip_with.
  apply map_zip_with. intros x y. apply firstn_zip_with.
Qed.

Lemma top_left_amap {A B : Type} (f : A -> B) h w a :
  top_left h w (amap f a) = amap f (top_left h w a).
Proof.
  unfold top_left, amap. rewrite firstn_map, !map_map.
  apply map_ext. intros r. apply firstn_map.
Qed.

Lemma row_lengths_top_left {A : Type} h w (a : array A) :
  row_lengths (top_left h w a) = map (Nat.min w) (firstn h (row_lengths a)).
Proof.
  unfold row_lengths, top_left. rewrite firstn_map, !map_map.
  apply map_ext. intros r. apply length_firstn.
Qed.

Lemma firstn_min_length {A : Type} n (l : list A) :
  firstn (Nat.min n (length l)) l = firstn n l.
Proof.
  destruct (Nat.le_ge_cases n (length l)) as [H|H].
  - now rewrite Nat.min_l.
  - rewrite Nat.min_r by exact H. now rewrite firstn_all, firstn_all2.
Qed.

Lemma getslice_from_origin {A : Type} n (l : list A) :
  getslice (Some 0) (Some (Z.of_nat n)) l = firstn n l.
Proof.
  unfold getslice, slice_bound.
  replace (0 <? 0) with false by reflexivity.
  replace (Z.of_nat n <? 0) with false by (symmetry; apply Z.ltb_ge; lia).
  rewrite (Z.min_l 0) by lia. rewrite Z.sub_0_r. simpl skipn.
  rewrite <- Nat2Z.inj_min, Nat2Z.id. apply firstn_min_length.
Qed.

Lemma getslice2_from_origin {A : Type} h w (a : array A) :
  getslice2 (Some 0, Some (Z.of_nat h)) (Some 0, Some (Z.of_nat w)) a
  = top_left h w a.
Proof.
  unfold getslice2, top_left. simpl fst. simpl snd.
  rewrite getslice_from_origin. apply map_ext. intros r.
  apply getslice_from_origin.
Qed.

Lemma amap_amap {A B C : Type} (f : A -> B) (g : B -> C) (a : array A) :
  amap g (amap f a) = amap (fun v => g (f v)) a.
Proof.
  unfold amap. rewrite map_map. apply map_ext. intros r. apply map_map.
Qed.

Lemma zip_with_map_same {A B C D : Type} (h : B -> C -> D) (f : A -> B)
  (g : A -> C) l :
  zip_with h (map f l) (map g l) = map (fun v => h (f v) (g v)) l.
Proof. induction l as [|x t IH]; simpl; [reflexivity | now rewrite IH]. Qed.

Lemma amap2_amap_same {A B C D : Type} (h : B -> C -> D) (f : A -> B)
  (g : A -> C) a :
  amap2 h (amap f a) (amap g a) = amap (fun v => h (f v) (g v)) a.
Proof.
  unfold amap2, amap. rewrite zip_with_map_same.
  apply map_ext. intros r. apply zip_with_map_same.
Qed.

(** A policy works cell by cell: it fails on every array, or it maps one
    function over the cells. *)
Lemma apply_mask_elementwise (self : LayerMask) :
  (exists e, forall data, _apply_mask self data = Raise e) \/
  (exists f, forall data, _apply_mask self data = Ok (amap f data)).
Proof.
  unfold _apply_mask. destruct (_as_weights self); simpl.
  { right. eexists. intros data. reflexivity. }
  destruct (_mask_type self) as [[| |]|]; simpl.
  - unfold _range_mask.
    destruct (min_value self) as [mn|], (max_value self) as [mx|].
    + right. eexists. intros data. unfold weighted.
      now rewrite amap2_amap_same, !amap_amap.
    + right. eexists. intros data. unfold weighted. now rewrite !amap_amap.
    + right. eexists. intros data. unfold weighted. now rewrite !amap_amap.
    + left. eexists. intros data. reflexivity.
  - right. eexists. intros data. unfold _exclusion_mask, _value_mask, weighted.
    simpl. now rewrite !amap_amap.
  - right. eexists. intros data. unfold _inclusion_mask, _value_mask, weighted.
    simpl. now rewrite !amap_amap.
  - left. eexists. intros data. reflexivity.
Qed.

Lemma apply_mask_top_left self h w data o :
  _apply_mask self data = Ok o ->
  _apply_mask self (top_left h w data) = Ok (top_left h w o).
Proof.
  destruct (apply_mask_elementwise self) as [[e H]|[f H]]; rewrite !H.
  - discriminate.
  - intros [= <-]. now rewrite top_left_amap.
Qed.

Section OriginWindow.

Variable datasets : list (string * ndarray).
Variable shape : Z * Z.
Variables h w : nat.

Let store := array_store datasets shape.
Let window := [Slice (Some 0) (Some (Z.of_nat h)); Slice (Some 0) (Some (Z.of_nat w))].

Lemma policy_output_top_left layer o :
  policy_output store [Ellipsis] layer = Ok o ->
  policy_output store window layer = Ok (top_left h w o).
Proof.
  unfold policy_output, store, window. simpl. unfold array_getitem.
  destruct (assoc (_layer layer) datasets) as [a|]; simpl; [|discriminate].
  rewrite getslice2_from_origin. apply apply_mask_top_left.
Qed.

Lemma times_top_left acc o :
  times (option_map (top_left h w) acc) (top_left h w o)
  = option_map (top_left h w) (times acc o).
Proof. destruct acc as [a|]; simpl; [now rewrite top_left_amap2 | reflexivity]. Qed.

Lemma fold_times_top_left outs acc :
  fold_left times (map (top_left h w) outs) (option_map (top_left h w) acc)
  = option_map (top_left h w) (fold_left times outs acc).
Proof.
  revert acc. induction outs as [|o t IH]; intros acc; simpl; [reflexivity|].
  now rewrite times_top_left, IH.
Qed.

(** The combined mask of a window at the origin is the corner of the
    combined mask of the whole domain. *)
Lemma combine_layers_top_left ls F :
  combine_layers store [Ellipsis] ls None = Ok F ->
  combine_layers store window ls None = Ok (option_map (top_left h w) F).
Proof.
  intros H. apply combine_layers_spec in H as [outs [F2 [U ->]]].
  apply combine_layers_spec. exists (map (top_left h w) outs). split; [|split].
  - clear U. induction F2 as [|l o ls' outs' Ho _ IH]; simpl; constructor.
    + now apply policy_output_top_left.
    + exact IH.
  - intros o o' Ho Ho'.
    apply in_map_iff in Ho as [x [<- Hx]]. apply in_map_iff in Ho' as [y [<- Hy]].
    now rewrite !row_lengths_top_left, (U x y Hx Hy).
  - unfold elementwise_product. symmetry.
    exact (fold_times_top_left outs None).
Qed.

End OriginWindow.

(* ================================================================== *)
(** * Regions seen through a window *)

Lemma nth_map_firstn {A : Type} w (l : array A) i :
  nth i (map (firstn w) l) [] = firstn w (nth i l []).
Proof.
  revert i. induction l as [|r t IH]; intros [|i]; simpl;
    try (now rewrite firstn_nil); auto.
Qed.

Lemma cell_top_left {A : Type} h w (a : array A) d i j :
  (i < h)%nat -> (j < w)%nat -> cell (top_left h w a) d i j = cell a d i j.
Proof.
  intros Hi Hj. unfold cell, top_left.
  rewrite nth_map_firstn, !nth_firstn.
  apply Nat.ltb_lt in Hi, Hj. now rewrite Hi, Hj.
Qed.

Lemma inb_top_left {A : Type} h w (a : array A) p :
  inb (top_left h w a) p <-> (fst p < h)%nat /\ (snd p < w)%nat /\ inb a p.
Proof.
  unfold inb, top_left. destruct p as [i j]. simpl.
  rewrite length_map, length_firstn.
  rewrite nth_map_firstn, length_firstn, nth_firstn.
  destruct (Nat.ltb_spec i h) as [Hi|Hi]; simpl; lia.
Qed.

Section Corner.

Variable whole : ndarray.
Variables h w : nat.
Variable k : kernel.

Let part := top_left h w whole.
Let s := FILTER_KERNELS k.

Lemma is_fg_top_left p :
  (fst p < h)%nat -> (snd p < w)%nat -> is_fg part p = is_fg whole p.
Proof.
  intros Hi Hj. rewrite !is_fg_cell. unfold part. now rewrite cell_top_left.
Qed.

Lemma in_foreground_top_left p :
  In p (foreground part) <->
  (fst p < h)%nat /\ (snd p < w)%nat /\ In p (foreground whole).
Proof.
  rewrite !in_foreground. unfold part at 1. rewrite inb_top_left. split.
  - intros [[Hi [Hj Hin]] Hf]. rewrite is_fg_top_left in Hf by assumption. tauto.
  - intros [Hi [Hj [Hin Hf]]]. rewrite is_fg_top_left by assumption. tauto.
Qed.

(** A region of the whole mask that lies inside the window is the same
    region of the part. *)
Lemma connected_corner p q :
  (forall r, connected (foreground whole) s p r -> (fst r < h)%nat /\ (snd r < w)%nat) ->
  (connected (foreground part) s p q <-> connected (foreground whole) s p q).
Proof.
  intros Hin. split.
  - apply connected_mono. intros r Hr. now apply in_foreground_top_left in Hr.
  - induction 1 as [Hp|x y Hx IH Hy Ha].
    + apply connected_refl. apply in_foreground_top_left.
      destruct (Hin p (connected_refl _ _ _ Hp)). tauto.
    + apply connected_step with x; [exact IH| |exact Ha].
      apply in_foreground_top_left.
      destruct (Hin y (connected_step _ _ _ _ _ Hx Hy Ha)). tauto.
Qed.

Lemma region_count_corner p :
  is_fg whole p = true ->
  (forall r, connected (foreground whole) s p r -> (fst r < h)%nat /\ (snd r < w)%nat) ->
  region_count part k p = region_count whole k p.
Proof.
  intros Hfg Hin.
  assert (Hp : (fst p < h)%nat /\ (snd p < w)%nat).
  { apply Hin. apply connected_refl. apply in_foreground.
    split; [now apply is_fg_inb | exact Hfg]. }
  assert (Hfg' : is_fg part p = true) by (rewrite is_fg_top_left; tauto).
  rewrite !region_count_filter. apply Permutation_length.
  apply NoDup_Permutation; try (apply NoDup_filter, NoDup_indices).
  intros q. rewrite !filter_In, !Nat.eqb_eq, !in_indices.
  rewrite (label_of_eq_connected part k p q Hfg').
  rewrite (label_of_eq_connected whole k p q Hfg).
  pose proof (connected_corner p q Hin) as Hcc. unfold part, s in *.
  rewrite Hcc. split.
  - intros [_ Hc]. split; [|exact Hc].
    apply connected_in_r in Hc. now apply in_foreground in Hc.
  - intros [_ Hc]. split; [|exact Hc].
    apply Hcc in Hc.
    apply connected_in_r in Hc. now apply in_foreground in Hc.
Qed.

Lemma has_background_top_left : has_background part -> has_background whole.
Proof.
  intros [p [Hp Hf]]. unfold part in Hp. apply inb_top_left in Hp as [Hi [Hj Hp]].
  exists p. split; [exact Hp|]. now rewrite <- is_fg_top_left.
Qed.

(** With background in the window, a position whose region lies inside
    the window is removed from the part exactly when it is removed from
    the whole mask. *)
Lemma removed_corner min_counts p :
  has_background part -> (fst p < h)%nat -> (snd p < w)%nat ->
  (forall r, connected (foreground whole) s p r -> (fst r < h)%nat /\ (snd r < w)%nat) ->
  removed part k min_counts p = removed whole k min_counts p.
Proof.
  intros Hbg Hi Hj Hin. apply eq_true_iff_eq.
  rewrite (removed_with_background part k min_counts p Hbg).
  rewrite (removed_with_background whole k min_counts p
             (has_background_top_left Hbg)).
  rewrite is_fg_top_left by assumption.
  split; intros [Hf Hc]; (split; [exact Hf|]).
  - now rewrite <- region_count_corner.
  - now rewrite region_count_corner.
Qed.

End Corner.

(* ================================================================== *)
(** * The request rows 10:20 / cols 10:20 of a 100x100 domain *)

Lemma getslice_all {A : Type} (l : list A) : getslice None None l = l.
Proof.
  unfold getslice, slice_bound. rewrite Z.sub_0_r, Nat2Z.id. simpl skipn.
  apply firstn_all.
Qed.

Lemma getslice2_all {A : Type} (a : array A) :
  getslice2 (None, None) (None, None) a = a.
Proof.
  unfold getslice2. simpl. rewrite getslice_all.
  rewrite (map_ext _ (fun r => r)); [apply map_id | intros r; apply getslice_all].
Qed.

Lemma firstn_skipn_seq {A : Type} lo n (l : list A) d :
  (lo + n <= length l)%nat ->
  firstn n (skipn lo l) = map (fun i => nth i l d) (seq lo n).
Proof.
  intros H. apply (nth_ext _ _ d (nth lo l d)).
  - rewrite length_firstn, length_skipn, length_map, length_seq. lia.
  - intros i Hi. rewrite length_firstn, length_skipn in Hi.
    rewrite nth_firstn, nth_skipn.
    replace (i <? n)%nat with true by (symmetry; apply Nat.ltb_lt; lia).
    change (nth lo l d) with ((fun i => nth i l d) lo).
    rewrite map_nth, seq_nth by lia. reflexivity.
Qed.

Lemma getslice_10_20 {A : Type} (l : list A) d :
  (20 <= length l)%nat ->
  getslice (Some 10) (Some 20) l = map (fun i => nth i l d) (seq 10 10).
Proof.
  intros H. unfold getslice, slice_bound.
  replace (10 <? 0) with false by reflexivity.
  replace (20 <? 0) with false by reflexivity.
  rewrite !Z.min_l by lia.
  change (Z.to_nat (20 - 10)) with 10%nat. change (Z.to_nat 10) with 10%nat.
  apply firstn_skipn_seq. lia.
Qed.

Lemma shape_rows {A : Type} (a : array A) h w i :
  row_lengths a = repeat w h -> (i < h)%nat ->
  length a = h /\ length (nth i a []) = w.
Proof.
  intros H Hi.
  assert (Hl : length a = h).
  { rewrite <- (length_map (@length A) a). fold (row_lengths a).
    now rewrite H, repeat_length. }
  split; [exact Hl|].
  change (length (nth i a [])) with ((fun r => length r) (nth i a [])).
  rewrite <- (map_nth (@length A)). fold (row_lengths a). rewrite H.
  apply (repeat_spec h w). apply nth_In. rewrite repeat_length. exact Hi.
Qed.

(** The crop of an array with 20 rows and columns at least, cell by cell. *)
Lemma restrict_cells (a : ndarray) h w :
  row_lengths a = repeat w h -> (20 <= h)%nat -> (20 <= w)%nat ->
  restrict a = map (fun i => map (fun j => cell a 0%Q i j) (seq 10 10)) (seq 10 10).
Proof.
  intros H Hh Hw. unfold restrict, getslice2. simpl fst. simpl snd.
  rewrite (getslice_10_20 a []).
  2:{ destruct (shape_rows a h w 0 H) as [-> _]; lia. }
  rewrite map_map. apply map_ext_in. intros i Hi. apply in_seq in Hi.
  apply getslice_10_20.
  destruct (shape_rows a h w i H) as [_ ->]; lia.
Qed.

Lemma increase_request self :
  h5_shape (_excl_h5 self) = (100, 100) ->
  _increase_mask_slice self request 1 = Ok (padded, request).
Proof. intros H. unfold _increase_mask_slice, request. rewrite H. reflexivity. Qed.

Lemma default_ex_area_nonzero : ~ (default_ex_area == 0)%Q.
Proof. intros H. vm_compute in H. discriminate. Qed.

Section Request.

Variable self : ExclusionMask.
Variable datasets : list (string * ndarray).
Variable min_area : Q.
Variable F : ndarray.

Hypothesis store_is : _excl_h5 self = array_store datasets (100, 100).
Hypothesis min_area_is : _min_area self = Some min_area.
Hypothesis combined :
  combine_layers (_excl_h5 self) [Ellipsis] (layers self) None = Ok (Some F).
Hypothesis domain : row_lengths F = repeat 100%nat 100.

Let k := _kernel self.
Let min_counts := Qceiling (min_area / default_ex_area).

Lemma domain_inb p : in_padded p -> inb F p.
Proof.
  intros [Hi Hj]. destruct (shape_rows F 100 100 (fst p) domain) as [Hl Hr]; [lia|].
  split; lia.
Qed.

Lemma mask_whole whole :
  _area_filter F min_area k default_ex_area = Ok whole ->
  mask self = Ok (Some whole).
Proof.
  intros H. unfold k in H. apply generate_mask_ok.
  exists [Ellipsis], full_slice, (Some F). rewrite min_area_is.
  split; [reflexivity|]. split; [exact combined|].
  rewrite H. cbn [bind]. unfold crop, full_slice.
  now rewrite getslice2_all.
Qed.

Lemma mask_request part :
  _area_filter (top_left 30 30 F) min_area k default_ex_area = Ok part ->
  _generate_mask self request = Ok (Some (restrict part)).
Proof.
  intros H. unfold k in H. apply generate_mask_ok.
  exists padded, request, (Some (top_left 30 30 F)). rewrite min_area_is.
  split; [apply increase_request; now rewrite store_is|]. split.
  - rewrite store_is.
    apply (combine_layers_top_left datasets (100, 100) 30 30 (layers self) (Some F)).
    now rewrite <- store_is.
  - rewrite H. reflexivity.
Qed.

Hypothesis background : exists p, in_padded p /\ is_fg F p = false.
Hypothesis local :
  forall p q, in_request p -> connected (foreground F) (FILTER_KERNELS k) p q ->
              in_padded q.

Lemma padded_has_background : has_background (top_left 30 30 F).
Proof.
  destruct background as [p [Hp Hf]]. exists p. split.
  - apply inb_top_left. pose proof (domain_inb p Hp). destruct Hp. tauto.
  - destruct Hp. now rewrite is_fg_top_left.
Qed.

Lemma filtered_cells_agree part whole p :
  _area_filter (top_left 30 30 F) min_area k default_ex_area = Ok part ->
  _area_filter F min_area k default_ex_area = Ok whole ->
  in_request p ->
  cell part 0%Q (fst p) (snd p) = cell whole 0%Q (fst p) (snd p).
Proof.
  intros Hp Hw [Hi Hj].
  assert (Hin : in_padded p) by (split; lia).
  rewrite (area_filter_cell _ _ _ _ _ p Hp).
  2:{ apply inb_top_left. pose proof (domain_inb p Hin). destruct Hin. tauto. }
  rewrite (area_filter_cell _ _ _ _ _ p Hw) by now apply domain_inb.
  rewrite (removed_corner F 30 30 k _ p padded_has_background);
    [|lia|lia|].
  - rewrite cell_top_left by lia. reflexivity.
  - intros r Hr. apply (local p r); [split; lia | exact Hr].
Qed.

End Request.

(** A region that leaves the padded window is cut by it: the line of
    twelve cells counts eleven cells in the window rows 0:30 / cols 0:30,
    below [min_counts = 12], so the request loses the cell at row 15,
    column 19, which the filter of the whole domain keeps. *)
Lemma padded_window_cuts_region :
  exists whole part,
    mask line_mask = Ok (Some whole) /\
    _generate_mask line_mask request = Ok (Some part) /\
    cell (restrict whole) 0%Q 5 9 = 1%Q /\
    cell part 0%Q 5 9 = 0%Q /\
    part <> restrict whole.
Proof.
  assert (Hw : exists whole, mask line_mask = Ok (Some whole)).
  { destruct (mask line_mask) as [[whole|]|e] eqn:E;
      [now exists whole | vm_compute in E; discriminate
       | vm_compute in E; discriminate]. }
  destruct Hw as [whole Hw].
  assert (Hp : exists part, _generate_mask line_mask request = Ok (Some part)).
  { destruct (_generate_mask line_mask request) as [[part|]|e] eqn:E;
      [now exists part | vm_compute in E; discriminate
       | vm_compute in E; discriminate]. }
  destruct Hp as [part Hp].
  exists whole, part. split; [exact Hw|]. split; [exact Hp|].
  assert (C1 : cell (restrict whole) 0%Q 5 9 = 1%Q).
  { assert (E : Ok (Some whole) = mask line_mask) by (now rewrite Hw).
    vm_compute in E. injection E as ->. vm_compute. reflexivity. }
  assert (C2 : cell part 0%Q 5 9 = 0%Q).
  { assert (E : Ok (Some part) = _generate_mask line_mask request)
      by (now rewrite Hp).
    vm_compute in E. injection E as ->. reflexivity. }
  split; [exact C1|]. split; [exact C2|].
  intros E. rewrite E, C1 in C2. discriminate.
Qed.

(** C1, amended. On a 100x100 domain the request rows 10:20 / cols 10:20
    is padded to rows 0:30 / cols 0:30 and the recorded sub slice is
    10:20 / 10:20. When the padded window holds some background and every
    region that meets the request lies inside the padded window, the
    mask of the request is the mask of the whole domain, filtered at
    once, restricted to rows 10:20 / cols 10:20. *)
Theorem padded_window_filter self datasets min_area F :
  _excl_h5 self = array_store datasets (100, 100) ->
  _min_area self = Some min_area ->
  combine_layers (_excl_h5 self) [Ellipsis] (layers self) None = Ok (Some F) ->
  row_lengths F = repeat 100%nat 100 ->
  (exists p, in_padded p /\ is_fg F p = false) ->
  (forall p q, in_request p ->
               connected (foreground F) (FILTER_KERNELS (_kernel self)) p q ->
               in_padded q) ->
  _increase_mask_slice self request 1 = Ok (padded, request) /\
  exists whole,
    mask self = Ok (Some whole) /\
    _generate_mask self request = Ok (Some (restrict whole)).
Proof.
  intros Hs Hm Hc Hd Hb Hl.
  split; [apply increase_request; now rewrite Hs|].
  destruct (area_filter_total F min_area (_kernel self) default_ex_area
              default_ex_area_nonzero) as [whole Hw].
  destruct (area_filter_total (top_left 30 30 F) min_area (_kernel self)
              default_ex_area default_ex_area_nonzero) as [part Hp].
  exists whole. split; [eapply mask_whole; eassumption|].
  rewrite (mask_request self datasets min_area F Hs Hm Hc part Hp).
  do 2 f_equal.
  rewrite (restrict_cells part 30 30); try lia.
  2:{ rewrite (area_filter_row_lengths _ _ _ _ _ Hp), row_lengths_top_left, Hd.
      reflexivity. }
  rewrite (restrict_cells whole 100 100); try lia.
  2:{ now rewrite (area_filter_row_lengths _ _ _ _ _ Hw). }
  apply map_ext_in. intros i Hi. apply map_ext_in. intros j Hj.
  apply in_seq in Hi, Hj.
  apply (filtered_cells_agree self min_area F Hd Hb Hl part whole (i, j) Hp Hw).
  split; simpl; lia.
Qed.

Lemma padded_window_filter_witness :
  _increase_mask_slice pixel_mask request 1 = Ok (padded, request) /\
  exists whole,
    mask pixel_mask = Ok (Some whole) /\
    _generate_mask pixel_mask request = Ok (Some (restrict whole)).
Proof.
  apply (padded_window_filter pixel_mask [("a", pixel_layer)]%string (1 # 100)
           (amap (fun v => v * 1)%Q pixel_layer)).
  - reflexivity.
  - reflexivity.
  - vm_compute. reflexivity.
  - vm_compute. reflexivity.
  - exists (O, O). split; [split; simpl; lia | vm_compute; reflexivity].
  - intros p q _ H. apply connected_in_r in H.
    assert (E : foreground (amap (fun v => v * 1)%Q pixel_layer) = [(15, 15)]%nat)
      by (vm_compute; reflexivity).
    rewrite E in H. destruct H as [<-|[]]. split; simpl; lia.
Defined.

(* ================================================================== *)
(** * More on LayerMask *)

Lemma Qle_bool_false x y : Qle_bool x y = false <-> (y < x)%Q.
Proof.
  split.
  - intros H. apply Qnot_le_lt. intros Hle. apply Qle_bool_iff in Hle. congruence.
  - intros H. destruct (Qle_bool x y) eqn:E; [|reflexivity].
    apply Qle_bool_iff in E. exfalso. exact (Qlt_not_le _ _ H E).
Qed.

Lemma check_mask_type_error rng excl incl aw e :
  _check_mask_type rng excl incl aw = Raise e -> e = RuntimeError.
Proof.
  unfold _check_mask_type.
  destruct aw; simpl; [discriminate|].
  destruct (is_some (fst rng) || is_some (snd rng)), (is_some excl),
    (is_some incl); simpl; congruence.
Qed.

(** X1. The constructor raises [ValueError] exactly when the weight is
    below 0 or above 1, whatever the other arguments are. *)
Theorem weight_rejected_iff layer rng excl incl aw w :
  LayerMask_init layer rng excl incl aw w = Raise ValueError <->
  (w < 0)%Q \/ (1 < w)%Q.
Proof.
  unfold LayerMask_init.
  destruct (Qle_bool w 1) eqn:E1; destruct (Qle_bool 0 w) eqn:E0; simpl.
  - split.
    + destruct (_check_mask_type rng excl incl aw) as [mt|e] eqn:Ec; simpl;
        [discriminate|].
      apply check_mask_type_error in Ec. congruence.
    + apply Qle_bool_iff in E1, E0. intros [H|H].
      * exfalso. exact (Qlt_not_le _ _ H E0).
      * exfalso. exact (Qlt_not_le _ _ H E1).
  - apply Qle_bool_false in E0. tauto.
  - apply Qle_bool_false in E1. tauto.
  - apply Qle_bool_false in E1. tauto.
Qed.

(** X2. Without [use_as_weights] the mask type the constructor records
    is the one approach that was supplied: [range] for a bound,
    [exclude] for values to exclude, [include] for values to include,
    and none when nothing was supplied. *)
Theorem mask_type_selected layer rng excl incl w self :
  LayerMask_init layer rng excl incl false w = Ok self ->
  (_mask_type self = Some range <->
   is_some (fst rng) || is_some (snd rng) = true) /\
  (_mask_type self = Some exclude <-> is_some excl = true) /\
  (_mask_type self = Some include <-> is_some incl = true) /\
  (_mask_type self = None <-> supplied rng excl incl = 0%nat).
Proof.
  intros H. apply init_fields in H as (_ & _ & _ & _ & _ & Hc).
  revert Hc. unfold _check_mask_type, supplied. simpl.
  destruct (is_some (fst rng) || is_some (snd rng)), (is_some excl),
    (is_some incl); simpl; try discriminate; intros [= <-];
    repeat split; intros; try discriminate; try reflexivity; try lia.
Qed.

Lemma mask_type_selected_witness :
  (_mask_type landuse_policy = Some range <->
   is_some (@None Q) || is_some (@None Q) = true) /\
  (_mask_type landuse_policy = Some exclude <-> is_some (Some [2%Q]) = true) /\
  (_mask_type landuse_policy = Some include <-> is_some (@None (list Q)) = true) /\
  (_mask_type landuse_policy = None <->
   supplied (None, None) (Some [2%Q]) None = 0%nat).
Proof.
  apply (mask_type_selected "landuse" (None, None) (Some [2%Q]) None 1
           landuse_policy).
  reflexivity.
Defined.



Lemma row_lengths_amap {A B : Type} (f : A -> B) (a : array A) :
  row_lengths (amap f a) = row_lengths a.
Proof.
  unfold row_lengths, amap. rewrite map_map. apply map_ext. intros r.
  apply length_map.
Qed.

Lemma apply_mask_row_lengths self data out :
  _apply_mask self data = Ok out -> row_lengths out = row_lengths data.
Proof.
  destruct (apply_mask_elementwise self) as [[e H]|[f H]]; rewrite H.
  - discriminate.
  - intros [= <-]. apply row_lengths_amap.
Qed.

(** X4. A policy returns an array of the shape of the data it is given,
    whatever its kind: each of the mask functions works cell by cell. *)
Theorem apply_mask_shape self data out :
  _apply_mask self data = Ok out -> row_lengths out = row_lengths data.
Proof. apply apply_mask_row_lengths. Qed.

Lemma apply_mask_shape_witness :
  row_lengths [[1 # 2; 0 # 2]; [1 # 2; 0 # 2]] = row_lengths [[3; 7]; [5; 9]]%Q.
Proof.
  apply (apply_mask_shape slope_policy [[3; 7]; [5; 9]]%Q). reflexivity.
Defined.




(* ================================================================== *)
(** * Adding layers *)

Lemma od_set_keys {A : Type} k (v : A) d :
  In k (map fst d) -> map fst (od_set k v d) = map fst d.
Proof.
  induction d as [|[k' v'] t IH]; simpl; [tauto|].
  destruct (String.eqb k k') eqn:E.
  - apply String.eqb_eq in E. now subst.
  - intros [H|H]; [subst; now rewrite String.eqb_refl in E|].
    simpl. now rewrite IH.
Qed.

Lemma assoc_od_set_same {A : Type} k (v : A) d : assoc k (od_set k v d) = Some v.
Proof.
  induction d as [|[k' v'] t IH]; simpl.
  - now rewrite String.eqb_refl.
  - destruct (String.eqb k k') eqn:E; simpl.
    + now rewrite String.eqb_refl.
    + now rewrite E.
Qed.

Lemma assoc_od_set_other {A : Type} k k0 (v : A) d :
  k0 <> k -> assoc k0 (od_set k v d) = assoc k0 d.
Proof.
  intros Hne. induction d as [|[k' v'] t IH]; simpl.
  - apply String.eqb_neq in Hne. now rewrite Hne.
  - destruct (String.eqb k k') eqn:E; simpl.
    + apply String.eqb_eq in E. subst k'.
      apply String.eqb_neq in Hne. now rewrite Hne.
    + now rewrite IH.
Qed.

Lemma add_layer_ok self layer replace self' :
  add_layer self layer replace = Ok self' ->
  In (_layer layer) (h5_layers (_excl_h5 self)) /\
  (replace = false -> ~ In (_layer layer) (layer_names self)) /\
  self' = mkExclusionMask (od_set (_layer layer) layer (_layers self))
            (_excl_h5 self) (_min_area self) (_kernel self).
Proof.
  unfold add_layer.
  destruct (in_names (_layer layer) (h5_layers (_excl_h5 self))) eqn:Hc; simpl;
    [|discriminate].
  apply in_names_iff in Hc.
  destruct (in_names (_layer layer) (layer_names self)) eqn:Hn;
    destruct replace; simpl; try discriminate; intros [= <-];
    (split; [exact Hc|]); (split; [|reflexivity]); try discriminate.
  intros _ H. apply in_names_iff in H. congruence.
Qed.

(** X6. Adding with [replace] a layer whose name is already present
    puts the new policy in the place of the old one: the names keep
    their order, the name now gives the new policy, and every other name
    gives what it gave before. *)
Theorem add_layer_replace self layer :
  In (_layer layer) (h5_layers (_excl_h5 self)) ->
  In (_layer layer) (layer_names self) ->
  exists self',
    add_layer self layer true = Ok self' /\
    layer_names self' = layer_names self /\
    assoc (_layer layer) (_layers self') = Some layer /\
    forall name, name <> _layer layer ->
                 assoc name (_layers self') = assoc name (_layers self).
Proof.
  intros Hc Hn. unfold add_layer.
  rewrite (proj2 (in_names_iff _ _) Hc), (proj2 (in_names_iff _ _) Hn). simpl.
  eexists. split; [reflexivity|]. unfold layer_names. simpl.
  split; [now apply od_set_keys|]. split; [apply assoc_od_set_same|].
  intros name Hne. now apply assoc_od_set_other.
Qed.

Lemma add_layer_replace_witness :
  exists self',
    add_layer (mkExclusionMask
                 [("slope", slope_policy); ("landuse", landuse_policy)]%string
                 two_layers None queen)
              (mkLayerMask "slope" (Some 1%Q, None) None None false 1 (Some range))
              true = Ok self' /\
    layer_names self' = ["slope"; "landuse"]%string /\
    assoc "slope" (_layers self')
    = Some (mkLayerMask "slope" (Some 1%Q, None) None None false 1 (Some range)) /\
    forall name, name <> "slope"%string ->
                 assoc name (_layers self')
                 = assoc name [("slope", slope_policy); ("landuse", landuse_policy)]%string.
Proof.
  apply (add_layer_replace
           (mkExclusionMask
              [("slope", slope_policy); ("landuse", landuse_policy)]%string
              two_layers None queen)
           (mkLayerMask "slope" (Some 1%Q, None) None None false 1 (Some range)));
    simpl; auto.
Defined.

(** X7. [add_layer] refuses a layer the store does not hold with
    [ValueError], with or without [replace]; it refuses a name that is
    already present with [RuntimeError] unless [replace] is asked; and a
    new name of the store is added after the layers already there. *)
Theorem add_layer_cases self layer replace :
  (~ In (_layer layer) (h5_layers (_excl_h5 self)) ->
   add_layer self layer replace = Raise ValueError) /\
  (In (_layer layer) (h5_layers (_excl_h5 self)) ->
   In (_layer layer) (layer_names self) ->
   add_layer self layer false = Raise RuntimeError) /\
  (In (_layer layer) (h5_layers (_excl_h5 self)) ->
   ~ In (_layer layer) (layer_names self) ->
   add_layer self layer replace
   = Ok (mkExclusionMask (_layers self ++ [(_layer layer, layer)])
           (_excl_h5 self) (_min_area self) (_kernel self))).
Proof.
  unfold add_layer. split; [|split].
  - intros H.
    destruct (in_names (_layer layer) (h5_layers (_excl_h5 self))) eqn:E;
      [apply in_names_iff in E; contradiction | reflexivity].
  - intros Hc Hn.
    now rewrite (proj2 (in_names_iff _ _) Hc), (proj2 (in_names_iff _ _) Hn).
  - intros Hc Hn. rewrite (proj2 (in_names_iff _ _) Hc). simpl.
    destruct (in_names (_layer layer) (layer_names self)) eqn:E;
      [apply in_names_iff in E; contradiction|].
    simpl. now rewrite od_set_fresh.
Qed.

Lemma add_layer_cases_witness :
  let self := mkExclusionMask [("slope", slope_policy)]%string two_layers None queen in
  add_layer self (mkLayerMask "wind" (None, None) None None true 1 None) true
  = Raise ValueError /\
  add_layer self slope_policy false = Raise RuntimeError /\
  add_layer self landuse_policy false
  = Ok (mkExclusionMask [("slope", slope_policy); ("landuse", landuse_policy)]%string
          two_layers None queen).
Proof.
  pose (self := mkExclusionMask [("slope", slope_policy)]%string two_layers None queen).
  split; [|split].
  - apply (proj1 (add_layer_cases self
                    (mkLayerMask "wind" (None, None) None None true 1 None) true)).
    simpl. intros [H|[H|[]]]; discriminate.
  - apply (proj1 (proj2 (add_layer_cases self slope_policy false))); simpl; auto.
  - apply (proj2 (proj2 (add_layer_cases self landuse_policy false))).
    + simpl. auto.
    + simpl. intros [H|[]]. discriminate.
Defined.

(** X8. [add_layer] keeps the dictionary of layers well keyed: when the
    keys are distinct and each is the name of its layer, they still are
    after a layer is added or replaced. *)
Theorem add_layer_well_keyed self layer replace self' :
  well_keyed (_layers self) ->
  add_layer self layer replace = Ok self' ->
  well_keyed (_layers self').
Proof.
  intros [N F] H. apply add_layer_ok in H as (_ & _ & ->). simpl.
  destruct (in_dec string_dec (_layer layer) (map fst (_layers self))) as [Hin|Hin].
  - split; [now rewrite od_set_keys|].
    clear N. induction (_layers self) as [|[k' v'] t IH]; simpl in *; [tauto|].
    inversion F as [|? ? Hkv Ft]; subst.
    destruct (String.eqb (_layer layer) k') eqn:E.
    + constructor; [reflexivity | exact Ft].
    + constructor; [exact Hkv|]. apply IH; [exact Ft|].
      destruct Hin as [Hin|Hin]; [|exact Hin].
      subst. now rewrite String.eqb_refl in E.
  - rewrite od_set_fresh by exact Hin. split.
    + rewrite map_app. simpl. apply NoDup_app; [exact N | | ].
      * constructor; [intros []|constructor].
      * intros x Hx [<-|[]]. contradiction.
    + apply Forall_app. split; [exact F|]. now constructor.
Qed.

Lemma add_layer_well_keyed_witness :
  well_keyed [("slope", slope_policy); ("landuse", landuse_policy)]%string.
Proof.
  apply (add_layer_well_keyed
           (mkExclusionMask [("slope", slope_policy)]%string two_layers None queen)
           landuse_policy false
           (mkExclusionMask
              [("slope", slope_policy); ("landuse", landuse_policy)]%string
              two_layers None queen)).
  - split; simpl; [constructor; [intros []|constructor] | now constructor].
  - reflexivity.
Defined.

Lemma kernel_of_string_some name k :
  kernel_of_string name = Some k <->
  (name = "queen"%string /\ k = queen) \/ (name = "rook"%string /\ k = rook).
Proof.
  unfold kernel_of_string.
  destruct (String.eqb_spec name "queen") as [->|Hq].
  - split; [intros [= <-]; auto | intros [[_ ->]|[H _]]; [reflexivity|discriminate]].
  - destruct (String.eqb_spec name "rook") as [->|Hr].
    + split; [intros [= <-]; auto | intros [[H _]|[_ ->]]; [discriminate|reflexivity]].
    + split; [discriminate | intros [[H _]|[H _]]; contradiction].
Qed.

(** X9. The combiner is built exactly when every layer is in the store,
    no two layers have the same name and the kernel is ["queen"] or
    ["rook"]; it then holds the layers in the order given, under their
    names, with the minimum area and the kernel asked for. *)
Theorem init_succeeds_iff excl_h5 ls min_area kernel_name self :
  ExclusionMask_init excl_h5 ls min_area kernel_name = Ok self <->
  Forall (fun l => In (_layer l) (h5_layers excl_h5)) ls /\
  NoDup (map _layer ls) /\
  exists k,
    ((kernel_name = "queen"%string /\ k = queen) \/
     (kernel_name = "rook"%string /\ k = rook)) /\
    self = mkExclusionMask (map (fun l => (_layer l, l)) ls) excl_h5 min_area k.
Proof.
  rewrite ExclusionMask_init_spec. unfold addable. split.
  - intros [[F [N _]] [k [Hk ->]]]. split; [exact F|]. split; [exact N|].
    exists k. split; [now apply kernel_of_string_some | reflexivity].
  - intros [F [N [k [Hk ->]]]]. split.
    + split; [exact F|]. split; [exact N|].
      apply Forall_forall. intros l _ [].
    + exists k. split; [now apply kernel_of_string_some | reflexivity].
Qed.

(** X10. With a kernel name other than ["queen"] and ["rook"] the
    constructor always raises; it raises [ValueError] when the layers
    themselves are accepted, the kernel being looked at last. *)
Theorem init_unknown_kernel excl_h5 ls min_area kernel_name :
  kernel_name <> "queen"%string -> kernel_name <> "rook"%string ->
  (exists e, ExclusionMask_init excl_h5 ls min_area kernel_name = Raise e) /\
  (Forall (fun l => In (_layer l) (h5_layers excl_h5)) ls ->
   NoDup (map _layer ls) ->
   ExclusionMask_init excl_h5 ls min_area kernel_name = Raise ValueError).
Proof.
  intros Hq Hr.
  assert (Hk : kernel_of_string kernel_name = None).
  { destruct (kernel_of_string kernel_name) as [k|] eqn:E; [|reflexivity].
    apply kernel_of_string_some in E as [[E _]|[E _]]; contradiction. }
  unfold ExclusionMask_init. split.
  - destruct (add_layers _ ls) as [self|e]; simpl; [|now exists e].
    rewrite Hk. now exists ValueError.
  - intros F N.
    destruct (add_layers (mkExclusionMask [] excl_h5 None queen) ls) as [self|e] eqn:E.
    + simpl. now rewrite Hk.
    + exfalso.
      assert (Ha : add_layers (mkExclusionMask [] excl_h5 None queen) ls
                   = Ok (mkExclusionMask ([] ++ map (fun l => (_layer l, l)) ls)
                           excl_h5 None queen)).
      { apply add_layers_spec. split; [|reflexivity].
        split; [exact F|]. split; [exact N|]. apply Forall_forall. intros l _ []. }
      congruence.
Qed.

Lemma init_unknown_kernel_witness :
  (exists e, ExclusionMask_init two_layers [slope_policy; landuse_policy] None
               "bishop" = Raise e) /\
  ExclusionMask_init two_layers [slope_policy; landuse_policy] None "bishop"
  = Raise ValueError.
Proof.
  destruct (init_unknown_kernel two_layers [slope_policy; landuse_policy] None
              "bishop") as [H1 H2]; try discriminate.
  split; [exact H1|]. apply H2.
  - constructor; [simpl; auto|]. constructor; [simpl; auto | constructor].
  - constructor; [simpl; intros [H|[]]; discriminate|].
    constructor; [intros [] | constructor].
Defined.

(* ================================================================== *)
(** * More on the window expander *)



(** X12. Away from the edges of the domain the padded window is the
    request with [n] times its extent added on each side: 2n + 1 times
    the extent on each axis (64x64 becomes 192x192 for n = 1). *)
Theorem padded_window_interior self ys ye xs xe n :
  0 <= n -> ys <= ye -> xs <= xe ->
  n * (ye - ys) <= ys -> ye + n * (ye - ys) <= fst (h5_shape (_excl_h5 self)) ->
  n * (xe - xs) <= xs -> xe + n * (xe - xs) <= snd (h5_shape (_excl_h5 self)) ->
  exists sub_slice,
    _increase_mask_slice self
      [Slice (Some ys) (Some ye); Slice (Some xs) (Some xe)] n
    = Ok ([Slice (Some (ys - n * (ye - ys))) (Some (ye + n * (ye - ys)));
           Slice (Some (xs - n * (xe - xs))) (Some (xe + n * (xe - xs)))],
          sub_slice) /\
    (ye + n * (ye - ys)) - (ys - n * (ye - ys)) = (2 * n + 1) * (ye - ys) /\
    (xe + n * (xe - xs)) - (xs - n * (xe - xs)) = (2 * n + 1) * (xe - xs).
Proof.
  intros Hn Hy Hx Hys Hye Hxs Hxe. unfold _increase_mask_slice. cbv zeta.
  rewrite (Z.abs_eq (ye - ys)), (Z.abs_eq (xe - xs)) by lia.
  rewrite (Z.max_r 0 (ys - n * (ye - ys))) by lia.
  rewrite (Z.max_r 0 (xs - n * (xe - xs))) by lia.
  rewrite (Z.min_r _ (ye + n * (ye - ys))) by lia.
  rewrite (Z.min_r _ (xe + n * (xe - xs))) by lia.
  eexists. split; [reflexivity|]. lia.
Qed.

Lemma padded_window_interior_witness :
  exists sub_slice,
    _increase_mask_slice
      (mkExclusionMask [] (array_store [] (1000, 1000)) (Some 1%Q) queen)
      [Slice (Some 64) (Some 128); Slice (Some 128) (Some 192)] 1
    = Ok ([Slice (Some (64 - 1 * (128 - 64))) (Some (128 + 1 * (128 - 64)));
           Slice (Some (128 - 1 * (192 - 128))) (Some (192 + 1 * (192 - 128)))],
          sub_slice) /\
    (128 + 1 * (128 - 64)) - (64 - 1 * (128 - 64)) = (2 * 1 + 1) * (128 - 64) /\
    (192 + 1 * (192 - 128)) - (128 - 1 * (192 - 128)) = (2 * 1 + 1) * (192 - 128).
Proof.
  apply (padded_window_interior
           (mkExclusionMask [] (array_store [] (1000, 1000)) (Some 1%Q) queen)
           64 128 128 192 1); simpl; lia.
Defined.

Lemma getslice_in_range {A : Type} lo hi (l : list A) :
  0 <= lo <= hi -> hi <= Z.of_nat (length l) ->
  getslice (Some lo) (Some hi) l
  = firstn (Z.to_nat (hi - lo)) (skipn (Z.to_nat lo) l).
Proof.
  intros H Hl. unfold getslice, slice_bound.
  replace (lo <? 0) with false by (symmetry; apply Z.ltb_ge; lia).
  replace (hi <? 0) with false by (symmetry; apply Z.ltb_ge; lia).
  now rewrite !Z.min_l by lia.
Qed.

(** A slice of a slice, taken at the place of the inner range. *)
Lemma getslice_nested {A : Type} (l : list A) s e ns ne :
  0 <= ns <= s -> s <= e -> e <= ne -> ne <= Z.of_nat (length l) ->
  getslice (Some (s - ns)) (Some (s - ns + (e - s)))
           (getslice (Some ns) (Some ne) l)
  = getslice (Some s) (Some e) l.
Proof.
  intros Hns Hse Hne Hl.
  rewrite (getslice_in_range ns ne l) by lia.
  rewrite (getslice_in_range s e l) by lia.
  rewrite getslice_in_range.
  2:{ lia. }
  2:{ rewrite length_firstn, length_skipn. lia. }
  replace (s - ns + (e - s) - (s - ns)) with (e - s) by lia.
  rewrite skipn_firstn_comm, skipn_skipn, firstn_firstn.
  replace (Z.to_nat (s - ns) + Z.to_nat ns)%nat with (Z.to_nat s) by lia.
  f_equal. lia.
Qed.

Lemma getslice_map {A B : Type} (f : A -> B) lo hi (l : list A) :
  getslice lo hi (map f l) = map f (getslice lo hi l).
Proof.
  unfold getslice. rewrite length_map. now rewrite skipn_map, firstn_map.
Qed.

Lemma in_getslice {A : Type} lo hi (l : list A) x :
  In x (getslice lo hi l) -> In x l.
Proof.
  unfold getslice. intros H.
  set (n := Z.to_nat (slice_bound (Z.of_nat (length l)) lo 0)) in *.
  rewrite <- (firstn_skipn n l). apply in_or_app. right.
  set (m := Z.to_nat _) in H.
  rewrite <- (firstn_skipn m (skipn n l)). apply in_or_app. now left.
Qed.

Lemma getslice2_nested (a : ndarray) (h w : nat) ys ye xs xe ny nye nx nxe :
  row_lengths a = repeat w h ->
  0 <= ny <= ys -> ys <= ye -> ye <= nye -> nye <= Z.of_nat h ->
  0 <= nx <= xs -> xs <= xe -> xe <= nxe -> nxe <= Z.of_nat w ->
  getslice2 (Some (ys - ny), Some (ys - ny + (ye - ys)))
            (Some (xs - nx), Some (xs - nx + (xe - xs)))
            (getslice2 (Some ny, Some nye) (Some nx, Some nxe) a)
  = getslice2 (Some ys, Some ye) (Some xs, Some xe) a.
Proof.
  intros Ha Hny Hy Hye Hnye Hnx Hx Hxe Hnxe.
  assert (Hl : length a = h).
  { rewrite <- (length_map (@length Q) a). fold (row_lengths a).
    now rewrite Ha, repeat_length. }
  assert (Hr : forall r, In r a -> length r = w).
  { intros r Hin. apply (repeat_spec h w). rewrite <- Ha. now apply in_map. }
  unfold getslice2. simpl fst. simpl snd.
  rewrite getslice_map, map_map, getslice_nested by lia.
  apply map_ext_in. intros r Hin. apply in_getslice in Hin.
  apply getslice_nested; try lia. rewrite (Hr r Hin). lia.
Qed.

Lemma increase_unclamped self ys ye xs xe :
  ys <= ye -> xs <= xe ->
  ye - ys <= ys \/ ys = 0 -> xe - xs <= xs \/ xs = 0 ->
  _increase_mask_slice self [Slice (Some ys) (Some ye); Slice (Some xs) (Some xe)] 1
  = Ok ([Slice (Some (Z.max 0 (ys - (ye - ys))))
               (Some (Z.min (fst (h5_shape (_excl_h5 self))) (ye + (ye - ys))));
         Slice (Some (Z.max 0 (xs - (xe - xs))))
               (Some (Z.min (snd (h5_shape (_excl_h5 self))) (xe + (xe - xs))))],
        [Slice (Some (ys - Z.max 0 (ys - (ye - ys))))
               (Some (ys - Z.max 0 (ys - (ye - ys)) + (ye - ys)));
         Slice (Some (xs - Z.max 0 (xs - (xe - xs))))
               (Some (xs - Z.max 0 (xs - (xe - xs)) + (xe - xs)))]).
Proof.
  intros Hy Hx Hys Hxs. unfold _increase_mask_slice. cbv zeta.
  assert (Ay : 1 * Z.abs (ye - ys) = ye - ys) by lia.
  assert (Ax : 1 * Z.abs (xe - xs) = xe - xs) by lia.
  rewrite Ay, Ax.
  assert (Ey : (if Z.max 0 (ys - (ye - ys)) =? ys then 0 else 1 * (ye - ys))
               = ys - Z.max 0 (ys - (ye - ys))).
  { destruct (Z.eqb_spec (Z.max 0 (ys - (ye - ys))) ys); lia. }
  assert (Ex : (if Z.max 0 (xs - (xe - xs)) =? xs then 0 else 1 * (xe - xs))
               = xs - Z.max 0 (xs - (xe - xs))).
  { destruct (Z.eqb_spec (Z.max 0 (xs - (xe - xs))) xs); lia. }
  now rewrite Ey, Ex.
Qed.

(** X13. With factor 1, for a request inside the domain whose padding
    is not clamped at the lower edge (the request starts at 0, or at
    least one extent away from it), reading the padded window from the
    store and cropping it with the sub slice gives back exactly the read
    of the request, whatever happens at the upper edge. *)
Theorem padded_read_crop_roundtrip self datasets (h w : nat) name a ys ye xs xe :
  _excl_h5 self = array_store datasets (Z.of_nat h, Z.of_nat w) ->
  assoc name datasets = Some a ->
  row_lengths a = repeat w h ->
  0 <= ys <= ye -> ye <= Z.of_nat h -> 0 <= xs <= xe -> xe <= Z.of_nat w ->
  ye - ys <= ys \/ ys = 0 -> xe - xs <= xs \/ xs = 0 ->
  exists new_slice sub_slice,
    _increase_mask_slice self
      [Slice (Some ys) (Some ye); Slice (Some xs) (Some xe)] 1
    = Ok (new_slice, sub_slice) /\
    (padded <- h5_getitem (_excl_h5 self) name new_slice ;; crop sub_slice padded)
    = h5_getitem (_excl_h5 self) name
        [Slice (Some ys) (Some ye); Slice (Some xs) (Some xe)].
Proof.
  intros Hs Hn Ha Hy Hye Hx Hxe Hys Hxs.
  do 2 eexists. split; [apply increase_unclamped; lia|].
  rewrite Hs. simpl. unfold array_getitem. rewrite Hn. simpl.
  f_equal. apply (getslice2_nested a h w); try assumption; lia.
Qed.

Lemma padded_read_crop_roundtrip_witness :
  exists new_slice sub_slice,
    _increase_mask_slice line_mask
      [Slice (Some 90) (Some 98); Slice (Some 0) (Some 10)] 1
    = Ok (new_slice, sub_slice) /\
    (padded <- h5_getitem (_excl_h5 line_mask) "a" new_slice ;;
     crop sub_slice padded)
    = h5_getitem (_excl_h5 line_mask) "a"
        [Slice (Some 90) (Some 98); Slice (Some 0) (Some 10)].
Proof.
  apply (padded_read_crop_roundtrip line_mask [("a", line_layer)]%string
           100 100 "a" line_layer 90 98 0 10);
    try reflexivity; try lia.
Defined.

(** X14. With a minimum area, a request of two slices one of whose
    bounds is left open ([mask[:, 10:20]]) raises [TypeError]: the
    window expander subtracts the bounds before anything is read. *)
Theorem open_slice_with_min_area self min_area ys ye xs xe :
  _min_area self = Some min_area ->
  ys = None \/ ye = None \/ xs = None \/ xe = None ->
  _generate_mask self [Slice ys ye; Slice xs xe] = Raise TypeError.
Proof.
  intros Hm H. unfold _generate_mask. rewrite Hm. unfold _increase_mask_slice.
  destruct ys, ye, xs, xe; try reflexivity;
    destruct H as [H|[H|[H|H]]]; discriminate.
Qed.

Lemma open_slice_with_min_area_witness :
  _generate_mask line_mask [Slice None None; Slice (Some 10) (Some 20)]
  = Raise TypeError.
Proof.
  apply (open_slice_with_min_area line_mask (9 # 100)); [reflexivity | now left].
Defined.

(* ================================================================== *)
(** * More on the mask of a window *)

Lemma increase_error self ds_slice n e :
  _increase_mask_slice self ds_slice n = Raise e -> e = TypeError.
Proof.
  unfold _increase_mask_slice.
  destruct ds_slice as [|[ys ye| |ix] [|[xs xe| |ix'] [|z t]]]; try discriminate.
  destruct ys, ye, xs, xe; simpl; congruence.
Qed.

(** X15. A combiner without layers returns Python's [None] for every
    request when no minimum area is set, and raises [TypeError] for
    every request when one is set: the filter is handed [None]. *)
Theorem mask_without_layers self ds_slice :
  _layers self = [] ->
  (_min_area self = None -> _generate_mask self ds_slice = Ok None) /\
  (forall min_area, _min_area self = Some min_area ->
                    _generate_mask self ds_slice = Raise TypeError).
Proof.
  intros Hl. unfold _generate_mask, layers. rewrite Hl. split.
  - intros ->. reflexivity.
  - intros min_area ->.
    destruct (_increase_mask_slice self ds_slice 1) as [[ds sub]|e] eqn:E; simpl.
    + reflexivity.
    + apply increase_error in E. now subst.
Qed.

Lemma mask_without_layers_witness :
  _generate_mask (mkExclusionMask [] two_layers None queen) [Ellipsis] = Ok None /\
  _generate_mask (mkExclusionMask [] two_layers (Some 1%Q) queen) [Ellipsis]
  = Raise TypeError.
Proof.
  split.
  - apply (proj1 (mask_without_layers
                    (mkExclusionMask [] two_layers None queen) [Ellipsis]
                    eq_refl)).
    reflexivity.
  - apply (proj2 (mask_without_layers
                    (mkExclusionMask [] two_layers (Some 1%Q) queen) [Ellipsis]
                    eq_refl) 1%Q).
    reflexivity.
Defined.

(** X16. With a minimum area, a request that is not a pair of slices
    (the whole domain [mask[...]] among them) is neither padded nor
    cropped: the result is the area filter of the combined layers read
    over the request itself. *)
Theorem unpadded_request_is_filtered self min_area ds_slice :
  _min_area self = Some min_area ->
  (forall ys ye xs xe, ds_slice <> [Slice ys ye; Slice xs xe]) ->
  _generate_mask self ds_slice
  = (m <- combine_layers (_excl_h5 self) ds_slice (layers self) None ;;
     match m with
     | None => Raise TypeError
     | Some m =>
         out <- _area_filter m min_area (_kernel self) default_ex_area ;;
         Ok (Some out)
     end).
Proof.
  intros Hm Hds. unfold _generate_mask. rewrite Hm.
  assert (E : _increase_mask_slice self ds_slice 1 = Ok (ds_slice, full_slice)).
  { unfold _increase_mask_slice.
    destruct ds_slice as [|[ys ye| |ix] [|[xs xe| |ix'] [|z t]]]; try reflexivity.
    exfalso. now apply (Hds ys ye xs xe). }
  rewrite E. cbn [bind].
  destruct (combine_layers (_excl_h5 self) ds_slice (layers self) None)
    as [[m|]|e]; cbn [bind]; try reflexivity.
  destruct (_area_filter m min_area (_kernel self) default_ex_area) as [out|e];
    cbn [bind]; [|reflexivity].
  unfold crop, full_slice. now rewrite getslice2_all.
Qed.

Lemma unpadded_request_is_filtered_witness :
  mask line_mask
  = (m <- combine_layers (_excl_h5 line_mask) [Ellipsis] (layers line_mask) None ;;
     match m with
     | None => Raise TypeError
     | Some m =>
         out <- _area_filter m (9 # 100) (_kernel line_mask) default_ex_area ;;
         Ok (Some out)
     end).
Proof.
  apply (unpadded_request_is_filtered line_mask (9 # 100) [Ellipsis]).
  - reflexivity.
  - discriminate.
Defined.

Section CombinePrefix.

Variable excl_h5 : ExclusionLayers.
Variable ds_slice : list index.

Lemma combine_layers_prefix pre rest outs acc :
  Forall2 (fun l o => policy_output excl_h5 ds_slice l = Ok o) pre outs ->
  uniform_shape (match acc with Some m => m :: outs | None => outs end) ->
  combine_layers excl_h5 ds_slice (pre ++ rest) acc
  = combine_layers excl_h5 ds_slice rest (fold_left times outs acc).
Proof.
  intros F. revert acc. induction F as [|l o pre' outs' Ho _ IH]; intros acc U.
  - reflexivity.
  - simpl app. cbn [combine_layers fold_left].
    unfold policy_output in Ho.
    destruct (h5_getitem excl_h5 (_layer l) ds_slice) as [data|e]; simpl in Ho;
      [|discriminate].
    cbn [bind]. rewrite Ho. cbn [bind].
    destruct acc as [m|]; cbn [bind times].
    + unfold imul.
      assert (Hs : row_lengths m = row_lengths o) by (apply U; simpl; auto).
      rewrite (proj2 (same_shape_iff m o) Hs). cbn [bind].
      apply IH. intros x y Hx Hy.
      assert (Hm : row_lengths (amap2 Qmult m o) = row_lengths m)
        by (now apply row_lengths_amap2).
      destruct Hx as [<-|Hx], Hy as [<-|Hy]; rewrite ?Hm;
        try reflexivity; apply U; simpl; auto.
    + apply IH. exact U.
Qed.

Lemma combine_layers_raise layer rest acc e :
  policy_output excl_h5 ds_slice layer = Raise e ->
  combine_layers excl_h5 ds_slice (layer :: rest) acc = Raise e.
Proof.
  unfold policy_output. cbn [combine_layers].
  destruct (h5_getitem excl_h5 (_layer layer) ds_slice) as [data|e']; simpl.
  - intros ->. reflexivity.
  - intros [= ->]. reflexivity.
Qed.

End CombinePrefix.

(** X17. Without a minimum area, the error of the first layer that
    fails, be it the read of the store or the policy, is the result of
    the request: when the layers before it give outputs of one shape, the
    mask raises that error, whatever the layers after it do. *)
Theorem first_failure_propagates self ds_slice pre layer post outs e :
  _min_area self = None ->
  layers self = pre ++ layer :: post ->
  Forall2 (fun l o => policy_output (_excl_h5 self) ds_slice l = Ok o) pre outs ->
  uniform_shape outs ->
  policy_output (_excl_h5 self) ds_slice layer = Raise e ->
  _generate_mask self ds_slice = Raise e.
Proof.
  intros Hm Hl F U He. unfold _generate_mask. rewrite Hm, Hl. cbn [bind].
  rewrite (combine_layers_prefix _ _ pre (layer :: post) outs None F U).
  now rewrite (combine_layers_raise _ _ layer post _ e He).
Qed.

Lemma first_failure_propagates_witness :
  _generate_mask
    (mkExclusionMask
       [("slope", slope_policy);
        ("wind", mkLayerMask "wind" (None, None) None None true 1 None);
        ("landuse", landuse_policy)]%string two_layers None queen)
    [Ellipsis]
  = Raise StoreError.
Proof.
  apply (first_failure_propagates
           (mkExclusionMask
              [("slope", slope_policy);
               ("wind", mkLayerMask "wind" (None, None) None None true 1 None);
               ("landuse", landuse_policy)]%string two_layers None queen)
           [Ellipsis] [slope_policy]
           (mkLayerMask "wind" (None, None) None None true 1 None)
           [landuse_policy] [[[1 # 2; 0 # 2]; [1 # 2; 0 # 2]]]).
  - reflexivity.
  - reflexivity.
  - constructor; [reflexivity | constructor].
  - intros o o' [<-|[]] [<-|[]]. reflexivity.
  - reflexivity.
Defined.

Lemma Forall_zip_with {A B C : Type} (P : A -> Prop) (Q : B -> Prop)
  (R : C -> Prop) (f : A -> B -> C) l l' :
  (forall x y, P x -> Q y -> R (f x y)) ->
  Forall P l -> Forall Q l' -> Forall R (zip_with f l l').
Proof.
  intros H Fl. revert l'. induction Fl as [|x t Hx _ IH]; intros l' Fl'.
  - constructor.
  - destruct Fl' as [|y t' Hy Ft']; simpl; constructor; auto.
Qed.

Lemma Forall_mapi_from {A B : Type} (P : A -> Prop) (R : B -> Prop)
  (f : nat -> A -> B) k l :
  (forall i x, P x -> R (f i x)) -> Forall P l -> Forall R (mapi_from f k l).
Proof.
  intros H Fl. revert k. induction Fl as [|x t Hx _ IH]; intros k; simpl;
    constructor; auto.
Qed.

Lemma Forall_getslice {A : Type} (P : A -> Prop) lo hi (l : list A) :
  Forall P l -> Forall P (getslice lo hi l).
Proof.
  rewrite !Forall_forall. intros H x Hx. apply H. eapply in_getslice; eassumption.
Qed.

Lemma unit_product (x y : Q) :
  (0 <= x)%Q /\ (x <= 1)%Q -> (0 <= y)%Q /\ (y <= 1)%Q ->
  (0 <= x * y)%Q /\ (x * y <= 1)%Q.
Proof.
  intros [Hx0 Hx1] [Hy0 Hy1]. split.
  - now apply Qmult_le_0_compat.
  - apply Qle_trans with (1 * y)%Q.
    + now apply Qmult_le_compat_r.
    + now rewrite Qmult_1_l.
Qed.

Lemma unit_cells_amap2 a b :
  unit_cells a -> unit_cells b -> unit_cells (amap2 Qmult a b).
Proof.
  unfold unit_cells, amap2. apply Forall_zip_with. intros r r'.
  apply Forall_zip_with. intros x y. apply unit_product.
Qed.

Lemma unit_cells_weighted_bool w (a : array bool) :
  valid_weight w -> unit_cells (weighted w (amap b2q a)).
Proof.
  intros [H0 H1]. unfold unit_cells, weighted. rewrite amap_amap. unfold amap.
  apply Forall_forall. intros r Hr. apply in_map_iff in Hr as [r0 [<- _]].
  apply Forall_forall. intros v Hv. apply in_map_iff in Hv as [b [<- _]].
  destruct b; simpl.
  - rewrite Qmult_1_l. now split.
  - rewrite Qmult_0_l. split; [apply Qle_refl | discriminate].
Qed.

Lemma unit_cells_apply self data out :
  _as_weights self = false -> valid_weight (_weight self) ->
  _apply_mask self data = Ok out -> unit_cells out.
Proof.
  intros Ha Hw. unfold _apply_mask. rewrite Ha. simpl.
  destruct (_mask_type self) as [[| |]|]; simpl; try discriminate.
  - destruct (_range_mask self data) as [b|a]; [discriminate|].
    intros [= <-]. now apply unit_cells_weighted_bool.
  - unfold _exclusion_mask, _value_mask. intros [= <-].
    now apply unit_cells_weighted_bool.
  - unfold _inclusion_mask, _value_mask. intros [= <-].
    now apply unit_cells_weighted_bool.
Qed.

Lemma unit_cells_product outs acc m :
  Forall unit_cells outs ->
  match acc with Some a => unit_cells a | None => True end ->
  fold_left times outs acc = Some m -> unit_cells m.
Proof.
  intros F. revert acc. induction F as [|o t Ho _ IH]; intros acc Ha; simpl.
  - intros ->. exact Ha.
  - apply IH. destruct acc as [a|]; simpl; [now apply unit_cells_amap2 | exact Ho].
Qed.

Lemma unit_cells_filter mask min_area k ex_area out :
  unit_cells mask -> _area_filter mask min_area k ex_area = Ok out ->
  unit_cells out.
Proof.
  intros U H. destruct (Qeq_bool ex_area 0) eqn:Hex.
  - rewrite area_filter_zero_area in H by exact Hex. discriminate.
  - rewrite area_filter_amapi in H by exact Hex. injection H as <-.
    unfold unit_cells, amapi.
    apply (Forall_mapi_from (Forall (fun v => (0 <= v)%Q /\ (v <= 1)%Q)));
      [|exact U].
    intros i r. apply Forall_mapi_from. intros j v Hv.
    destruct (existsb _ _); [split; discriminate | exact Hv].
Qed.

Lemma unit_cells_crop sub_slice mask out :
  unit_cells mask -> crop sub_slice mask = Ok out -> unit_cells out.
Proof.
  intros U. unfold crop.
  destruct sub_slice as [|[ys ye| |ix] [|[xs xe| |ix'] [|z t]]]; try discriminate.
  intros [= <-]. unfold unit_cells, getslice2. simpl.
  apply Forall_forall. intros r Hr. apply in_map_iff in Hr as [r0 [<- Hr0]].
  apply Forall_getslice. apply in_getslice in Hr0.
  unfold unit_cells in U. rewrite Forall_forall in U. now apply U.
Qed.

(** X18. When every layer is of a boolean kind (no [use_as_weights])
    and has its weight in [0, 1], every cell of the mask of a request
    lies between 0 and 1, with or without a minimum area. *)
Theorem mask_cells_in_unit_interval self ds_slice m :
  Forall (fun l => _as_weights l = false /\ valid_weight (_weight l))
         (layers self) ->
  _generate_mask self ds_slice = Ok (Some m) ->
  unit_cells m.
Proof.
  intros Hl H. apply generate_mask_ok in H as (ds & sub & c & _ & Hc & Hpost).
  apply combine_layers_spec in Hc as (outs & F2 & _ & ->).
  assert (Fo : Forall unit_cells outs).
  { clear Hpost. induction F2 as [|l o ls outs' Ho _ IH]; constructor.
    - inversion Hl as [|? ? [Ha Hw] _]; subst.
      unfold policy_output in Ho. apply bind_ok in Ho as [data [_ Ho]].
      eapply unit_cells_apply; eassumption.
    - apply IH. now inversion Hl. }
  assert (Hc : forall c, elementwise_product outs = Some c -> unit_cells c).
  { intros c. now apply unit_cells_product. }
  destruct (_min_area self) as [min_area|].
  - destruct (elementwise_product outs) as [c|]; [|discriminate].
    apply bind_ok in Hpost as [out [Hf Hpost]].
    apply bind_ok in Hpost as [cropped [Hcr [= <-]]].
    eapply unit_cells_crop; [|exact Hcr].
    eapply unit_cells_filter; [|exact Hf]. now apply Hc.
  - injection Hpost as Hpost. now apply Hc.
Qed.

Lemma mask_cells_in_unit_interval_witness :
  unit_cells [[1 # 2; 0 # 2]; [0 # 2; 0 # 2]].
Proof.
  apply (mask_cells_in_unit_interval
           (mkExclusionMask
              [("slope", slope_policy); ("landuse", landuse_policy)]%string
              two_layers None queen) [Ellipsis]).
  - repeat constructor; simpl; unfold Qle; simpl; lia.
  - reflexivity.
Defined.

Lemma row_lengths_product outs a m :
  Forall (fun o => row_lengths o = row_lengths a) outs ->
  fold_left times outs (Some a) = Some m -> row_lengths m = row_lengths a.
Proof.
  revert a. induction outs as [|o t IH]; intros a F; simpl.
  - intros [= <-]. reflexivity.
  - inversion F as [|? ? Ho Ft]; subst. intros H.
    apply IH in H.
    + rewrite H. now apply row_lengths_amap2.
    + rewrite row_lengths_amap2 by congruence. exact Ft.
Qed.

(** X19. Without a minimum area the mask of a request has the shape of
    the data read for it: for each layer, the shape of the raw values the
    store returns for that request. *)
Theorem mask_shape_is_read_shape self ds_slice m :
  _min_area self = None ->
  _generate_mask self ds_slice = Ok (Some m) ->
  Forall (fun l => exists data,
                     h5_getitem (_excl_h5 self) (_layer l) ds_slice = Ok data /\
                     row_lengths m = row_lengths data)
         (layers self).
Proof.
  intros Hm H. apply generate_mask_ok in H as (ds & sub & c & Hi & Hc & Hpost).
  rewrite Hm in Hi, Hpost. injection Hi as <- _. injection Hpost as ->.
  apply combine_layers_spec in Hc as (outs & F2 & U & E).
  assert (Hs : forall o, In o outs -> row_lengths m = row_lengths o).
  { destruct outs as [|a t]; [discriminate|]. unfold elementwise_product in E.
    simpl in E. symmetry in E. apply row_lengths_product in E.
    - intros o Ho. rewrite E. apply U; simpl; auto.
    - apply Forall_forall. intros o Ho. apply U; simpl; auto. }
  clear E U. induction F2 as [|l o ls outs' Ho _ IH]; constructor.
  - unfold policy_output in Ho. apply bind_ok in Ho as [data [Hd Ho]].
    exists data. split; [exact Hd|].
    rewrite (Hs o) by (now left). eapply apply_mask_row_lengths; eassumption.
  - apply IH. intros o' Ho'. apply Hs. now right.
Qed.

Lemma mask_shape_is_read_shape_witness :
  Forall (fun l => exists data,
                     h5_getitem two_layers (_layer l) [Ellipsis] = Ok data /\
                     row_lengths [[1 # 2; 0 # 2]; [0 # 2; 0 # 2]]
                     = row_lengths data)
         [slope_policy; landuse_policy].
Proof.
  apply (mask_shape_is_read_shape
           (mkExclusionMask
              [("slope", slope_policy); ("landuse", landuse_policy)]%string
              two_layers None queen) [Ellipsis]); reflexivity.
Defined.








(* ================================================================== *)
(** * More on the area filter *)

Lemma filter_none {A : Type} (f : A -> bool) (l : list A) :
  (forall x, In x l -> f x = false) -> filter f l = [].
Proof.
  induction l as [|x t IH]; intros H; simpl; [reflexivity|].
  rewrite (H x) by (now left). apply IH. intros y Hy. apply H. now right.
Qed.

Lemma in_tl {A : Type} (x : A) (l : list A) : In x (tl l) -> In x l.
Proof. destruct l; simpl; auto. Qed.

Lemma area_filter_unchanged mask min_area k ex_area :
  Qeq_bool ex_area 0 = false ->
  bad_labels mask k (Qceiling (min_area / ex_area)) = [] ->
  _area_filter mask min_area k ex_area = Ok mask.
Proof.
  intros Hex Hb. rewrite area_filter_amapi by exact Hex. rewrite Hb. simpl.
  f_equal. apply (amapi_fix _ _ 0%Q). reflexivity.
Qed.

(** X21. A minimum area of at most one pixel removes nothing: every
    region counts one pixel at least, so the filter returns the mask as
    it is. *)
Theorem one_pixel_min_area_keeps_all mask min_area k ex_area :
  (0 < ex_area)%Q -> (min_area <= ex_area)%Q ->
  _area_filter mask min_area k ex_area = Ok mask.
Proof.
  intros Hex Hle. apply area_filter_unchanged.
  - destruct (Qeq_bool ex_area 0) eqn:E; [|reflexivity].
    apply Qeq_bool_iff in E. rewrite E in Hex. now apply Qlt_irrefl in Hex.
  - assert (Hc : Qceiling (min_area / ex_area) <= 1).
    { rewrite <- (Qceiling_Z 1). apply Qceiling_resp_le.
      apply Qle_shift_div_r; [exact Hex|]. now rewrite Qmult_1_l. }
    unfold bad_labels. rewrite filter_none; [reflexivity|].
    intros [v c] Hin. apply in_tl, in_np_unique in Hin as [_ Hpos].
    apply Z.ltb_ge. simpl. lia.
Qed.

Lemma one_pixel_min_area_keeps_all_witness :
  _area_filter single_pixel (81 # 10000) rook default_ex_area = Ok single_pixel.
Proof.
  apply (one_pixel_min_area_keeps_all single_pixel (81 # 10000) rook
           default_ex_area); unfold Qlt, Qle; simpl; lia.
Defined.

Lemma removed_monotone mask k c c' p :
  c <= c' -> removed mask k c p = true -> removed mask k c' p = true.
Proof.
  intros Hc H. apply removed_iff, in_bad_labels in H as [n [Hin Hn]].
  apply removed_iff, in_bad_labels. exists n. split; [exact Hin | lia].
Qed.

Lemma cell_after_filter mask min_area k ex_area out i j :
  _area_filter mask min_area k ex_area = Ok out ->
  cell out 0%Q i j
  = if removed mask k (Qceiling (min_area / ex_area)) (i, j) then 0%Q
    else cell mask 0%Q i j.
Proof.
  intros H.
  assert (Hdec : inb mask (i, j) \/ ~ inb mask (i, j)) by (unfold inb; simpl; lia).
  destruct Hdec as [Hp|Hp].
  - exact (area_filter_cell _ _ _ _ _ (i, j) H Hp).
  - rewrite (cell_outside mask) by exact Hp.
    rewrite (cell_outside out)
      by (now rewrite (proj2 (area_filter_shape _ _ _ _ _ H))).
    now destruct (removed _ _ _ _).
Qed.

(** X22. Raising the minimum area only removes more: each cell of the
    result for the larger minimum area is the cell of the result for the
    smaller one, or 0. *)
Theorem area_filter_monotone mask min_area min_area' k ex_area out out' :
  (0 < ex_area)%Q -> (min_area <= min_area')%Q ->
  _area_filter mask min_area k ex_area = Ok out ->
  _area_filter mask min_area' k ex_area = Ok out' ->
  forall i j, cell out' 0%Q i j = cell out 0%Q i j \/ cell out' 0%Q i j = 0%Q.
Proof.
  intros Hex Hle H H' i j.
  rewrite (cell_after_filter _ _ _ _ _ i j H), (cell_after_filter _ _ _ _ _ i j H').
  assert (Hc : Qceiling (min_area / ex_area) <= Qceiling (min_area' / ex_area)).
  { apply Qceiling_resp_le. unfold Qdiv. apply Qmult_le_compat_r; [exact Hle|].
    apply Qlt_le_weak. now apply Qinv_lt_0_compat. }
  destruct (removed mask k (Qceiling (min_area / ex_area)) (i, j)) eqn:E.
  - rewrite (removed_monotone _ _ _ _ _ Hc E). now left.
  - destruct (removed mask k (Qceiling (min_area' / ex_area)) (i, j)); auto.
Qed.

Lemma area_filter_monotone_witness :
  cell (amap (fun _ => 0%Q) single_pixel) 0%Q 2 2 = cell single_pixel 0%Q 2 2 \/
  cell (amap (fun _ => 0%Q) single_pixel) 0%Q 2 2 = 0%Q.
Proof.
  apply (area_filter_monotone single_pixel (5 # 1000) (1 # 100) rook
           default_ex_area single_pixel (amap (fun _ => 0%Q) single_pixel)).
  - unfold Qlt. simpl. lia.
  - unfold Qle. simpl. lia.
  - vm_compute. reflexivity.
  - vm_compute. reflexivity.
Defined.

Lemma positive_cell_nonzero v : positive_cell v = true -> v <> 0%Q.
Proof. intros H ->. discriminate. Qed.

(** X23. Regions are removed whole: of two foreground positions that are
    connected, the filter sets both to 0 or neither. *)
Theorem regions_removed_whole mask min_area k ex_area out p q :
  _area_filter mask min_area k ex_area = Ok out ->
  connected (foreground mask) (FILTER_KERNELS k) p q ->
  (cell out 0%Q (fst p) (snd p) = 0%Q <-> cell out 0%Q (fst q) (snd q) = 0%Q).
Proof.
  intros H Hc.
  assert (Hp : is_fg mask p = true).
  { apply connected_in_l in Hc. now apply in_foreground in Hc. }
  assert (Hq : is_fg mask q = true) by (eapply fg_connected_in; eassumption).
  pose proof (proj2 (label_of_eq_connected mask k p q Hp) Hc) as El.
  pose proof (removed_same_label mask k min_area ex_area p q El) as Er.
  cbv zeta in Er.
  destruct p as [pi pj], q as [qi qj]. simpl fst. simpl snd.
  rewrite (cell_after_filter _ _ _ _ _ pi pj H).
  rewrite (cell_after_filter _ _ _ _ _ qi qj H), Er.
  rewrite is_fg_cell in Hp, Hq. simpl in Hp, Hq.
  destruct (removed mask k (Qceiling (min_area / ex_area)) (pi, pj)).
  - tauto.
  - split; intros E.
    + now apply positive_cell_nonzero in Hp.
    + now apply positive_cell_nonzero in Hq.
Qed.

Lemma regions_removed_whole_witness :
  cell [[0; 0; 0]; [0; 0; 0]]%Q 0%Q 0 0 = 0%Q <->
  cell [[0; 0; 0]; [0; 0; 0]]%Q 0%Q 1 0 = 0%Q.
Proof.
  apply (regions_removed_whole [[1; 0; 1]; [1; 0; 0]]%Q (2 # 100) rook
           default_ex_area [[0; 0; 0]; [0; 0; 0]]%Q (0, 0)%nat (1, 0)%nat).
  - vm_compute. reflexivity.
  - apply connected_step with (0, 0)%nat.
    + apply connected_refl. vm_compute. auto.
    + vm_compute. auto.
    + reflexivity.
Defined.


Lemma area_filter_all_foreground_witness :
  _area_filter [[1; 1]; [1; 1]]%Q 1 rook default_ex_area = Ok [[1; 1]; [1; 1]]%Q.
Proof.
  apply (area_filter_all_foreground [[1; 1]; [1; 1]]%Q 1 rook default_ex_area).
  - reflexivity.
  - intros [i j] [Hi Hj]. simpl in Hi, Hj.
    destruct i as [|[|i]]; simpl in Hj; try lia;
      destruct j as [|[|j]]; try lia; reflexivity.
  - exact default_ex_area_nonzero.
Defined.

(** Neighbours under the rook kernel are neighbours under the queen
    kernel. *)
Lemma adjacent_rook_queen p q :
  adjacent (FILTER_KERNELS rook) p q = true ->
  adjacent (FILTER_KERNELS queen) p q = true.
Proof.
  unfold adjacent.
  set (a := Z.of_nat (fst q) - Z.of_nat (fst p)).
  set (b := Z.of_nat (snd q) - Z.of_nat (snd p)).
  assert (Ha : a < -1 \/ a = -1 \/ a = 0 \/ a = 1 \/ 1 < a) by lia.
  assert (Hb : b < -1 \/ b = -1 \/ b = 0 \/ b = 1 \/ 1 < b) by lia.
  clearbody a b.
  destruct Ha as [Ha|[->|[->|[->|Ha]]]]; destruct Hb as [Hb|[->|[->|[->|Hb]]]];
    try (intros _; reflexivity); try (simpl; discriminate);
    repeat match goal with
           | |- context [?x <=? ?y] => destruct (Z.leb_spec x y); try lia
           end; simpl; try discriminate; auto.
Qed.

Lemma connected_rook_queen V p q :
  connected V (FILTER_KERNELS rook) p q -> connected V (FILTER_KERNELS queen) p q.
Proof.
  induction 1 as [Hp|x y _ IH Hy Ha]; [now apply connected_refl|].
  apply connected_step with x; [exact IH | exact Hy | now apply adjacent_rook_queen].
Qed.

Lemma region_count_rook_queen mask p :
  is_fg mask p = true ->
  (region_count mask rook p <= region_count mask queen p)%nat.
Proof.
  intros Hp. rewrite !region_count_filter.
  apply NoDup_incl_length; [apply NoDup_filter, NoDup_indices|].
  intros x Hx. apply filter_In in Hx as [Hi Hx]. apply filter_In.
  split; [exact Hi|]. apply Nat.eqb_eq in Hx. apply Nat.eqb_eq.
  apply (label_of_eq_connected mask queen p x Hp).
  apply connected_rook_queen.
  now apply (label_of_eq_connected mask rook p x Hp).
Qed.

(** X24. On a mask that holds some background, the rook kernel removes
    at least what the queen kernel removes: regions joined through
    diagonals are larger, so each cell of the rook result is the cell of
    the queen result, or 0. *)
Theorem rook_removes_more mask min_area ex_area out_queen out_rook :
  has_background mask ->
  _area_filter mask min_area queen ex_area = Ok out_queen ->
  _area_filter mask min_area rook ex_area = Ok out_rook ->
  forall i j,
    cell out_rook 0%Q i j = cell out_queen 0%Q i j \/ cell out_rook 0%Q i j = 0%Q.
Proof.
  intros Hbg Hq Hr i j.
  rewrite (cell_after_filter _ _ _ _ _ i j Hq), (cell_after_filter _ _ _ _ _ i j Hr).
  destruct (removed mask queen (Qceiling (min_area / ex_area)) (i, j)) eqn:Eq.
  - apply (removed_with_background mask queen _ (i, j) Hbg) in Eq as [Hf Hc].
    assert (Er : removed mask rook (Qceiling (min_area / ex_area)) (i, j) = true).
    { apply (removed_with_background mask rook _ (i, j) Hbg). split; [exact Hf|].
      pose proof (region_count_rook_queen mask (i, j) Hf). lia. }
    rewrite Er. now left.
  - destruct (removed mask rook (Qceiling (min_area / ex_area)) (i, j)); auto.
Qed.

Lemma rook_removes_more_witness :
  cell [[0; 0]; [0; 0]]%Q 0%Q 0 0 = cell [[1; 0]; [0; 1]]%Q 0%Q 0 0 \/
  cell [[0; 0]; [0; 0]]%Q 0%Q 0 0 = 0%Q.
Proof.
  apply (rook_removes_more [[1; 0]; [0; 1]]%Q (1 # 100) default_ex_area
           [[1; 0]; [0; 1]]%Q [[0; 0]; [0; 0]]%Q).
  - exists (0, 1)%nat. split; [split; simpl; lia | reflexivity].
  - vm_compute. reflexivity.
  - vm_compute. reflexivity.
Defined.

(* ================================================================== *)
(** * ExclusionMaskFromDict *)

Lemma build_layers_names layers_dict ls :
  build_layers layers_dict = Ok ls -> map _layer ls = map fst layers_dict.
Proof.
  revert ls. induction layers_dict as [|[name kw] t IH]; intros ls; simpl.
  - intros [= <-]. reflexivity.
  - intros H. apply bind_ok in H as [l [Hl H]].
    apply bind_ok in H as [ls' [Hls [= <-]]].
    unfold LayerMask_kwargs in Hl. apply init_fields in Hl as Hf.
    simpl. rewrite (IH ls' Hls). f_equal.
    unfold LayerMask_kwargs, LayerMask_init in Hl.
    destruct (negb _ || negb _); [discriminate|].
    destruct (_check_mask_type _ _ _ _); simpl in Hl; [|discriminate].
    now injection Hl as <-.
Qed.

(** X25. Built from a dictionary, whose keys are distinct, the combiner
    never fails on a repeated layer: when the arguments of every layer
    are accepted, every key is a layer of the store and the kernel is
    known, it is built, with the keys as its layer names, in the order
    of the dictionary. *)
Theorem from_dict_builds excl_h5 layers_dict min_area kernel_name ls k :
  NoDup (map fst layers_dict) ->
  build_layers layers_dict = Ok ls ->
  Forall (fun name => In name (h5_layers excl_h5)) (map fst layers_dict) ->
  kernel_of_string kernel_name = Some k ->
  exists self,
    ExclusionMaskFromDict_init excl_h5 layers_dict min_area kernel_name = Ok self /\
    layer_names self = map fst layers_dict /\
    layers self = ls /\ _min_area self = min_area /\ _kernel self = k.
Proof.
  intros N Hb F Hk. pose proof (build_layers_names _ _ Hb) as Hn.
  unfold ExclusionMaskFromDict_init. rewrite Hb. cbn [bind].
  exists (mkExclusionMask (map (fun l => (_layer l, l)) ls) excl_h5 min_area k).
  split.
  - apply ExclusionMask_init_spec. split.
    + split; [|split].
      * rewrite <- Hn in F. now rewrite Forall_map in F.
      * now rewrite Hn.
      * apply Forall_forall. intros l _ [].
    + exists k. auto.
  - unfold layer_names, layers. simpl.
    rewrite layers_named, map_map. simpl. auto.
Qed.

Lemma from_dict_builds_witness :
  exists self,
    ExclusionMaskFromDict_init two_layers
      [("slope", mkLayerKwargs (Some (None, Some (5 # 1))) None None None
                   (Some (1 # 2)));
       ("landuse", mkLayerKwargs None (Some [2%Q]) None None None)]%string
      None "queen" = Ok self /\
    layer_names self = ["slope"; "landuse"]%string /\
    layers self = [slope_policy; landuse_policy] /\
    _min_area self = None /\ _kernel self = queen.
Proof.
  apply (from_dict_builds two_layers
           [("slope", mkLayerKwargs (Some (None, Some (5 # 1))) None None None
                        (Some (1 # 2)));
            ("landuse", mkLayerKwargs None (Some [2%Q]) None None None)]%string
           None "queen" [slope_policy; landuse_policy] queen).
  - constructor; [simpl; intros [H|[]]; discriminate|].
    constructor; [intros [] | constructor].
  - reflexivity.
  - constructor; [simpl; auto|]. constructor; [simpl; auto | constructor].
  - reflexivity.
Defined.
